(** * PatientData: the access-control ledger of the MediChain contract

    A shallow embedding of [contracts/PatientData.sol].  Storage mappings are
    finite maps read with a default (an absent key reads as the zero value,
    as in Solidity), the dynamic array of doctors is a list, [require] is an
    error monad that records the state at the point of failure, and the
    events emitted by a transaction are appended to a log that is part of the
    state. *)

From Stdlib Require Import NArith String List Lia Permutation.
From stdpp Require Import base option list gmap.

Local Open Scope N_scope.

(** An [address] is a 160-bit word and a [uint256] a 256-bit word.  The
    contract only compares, stores and copies them: no arithmetic is done on
    either, so no wrap-around is involved and both are numbers in [N].  The
    index of the loop in [revokeAccess] runs below the length of an array
    and is a [nat]. *)
Abbreviation address := N.
Abbreviation uint256 := N.

(** ** Data model *)

Module MedicalRecord.
Record t := mk {
  name : string;
  age : uint256;
  medicalHistory : string;
  ipfsHash : string;
  timestamp : uint256;
  exists_ : bool
}.
(** The value read from a mapping slot that was never written. *)
Definition zero : t := mk EmptyString 0 EmptyString EmptyString 0 false.
End MedicalRecord.

Module AccessPermission.
Record t := mk {
  doctor : address;
  granted : bool;
  timestamp : uint256
}.
Definition zero : t := mk 0 false 0.
End AccessPermission.

#[global] Instance MedicalRecord_inhabited : Inhabited MedicalRecord.t :=
  populate MedicalRecord.zero.
#[global] Instance AccessPermission_inhabited : Inhabited AccessPermission.t :=
  populate AccessPermission.zero.

Inductive Event :=
| MedicalRecordAdded (patient : address) (name : string) (age timestamp : uint256)
| AccessGranted (patient doctor : address) (timestamp : uint256)
| AccessRevoked (patient doctor : address) (timestamp : uint256)
| RecordAccessed (patient doctor : address) (timestamp : uint256).

(** The three storage mappings of the contract, and the log of the events
    emitted so far. *)
Record State := mkState {
  patientRecords : gmap address MedicalRecord.t;
  doctorAccess : gmap address (gmap address AccessPermission.t);
  patientDoctors : gmap address (list address);
  events : list Event
}.

Definition init : State := mkState ∅ ∅ ∅ [].

(** [msg.sender] and [block.timestamp] of the running transaction. *)
Record Env := mkEnv { sender : address; now : uint256 }.

(** ** Failures

    One constructor for each [require] message of the contract. *)
Inductive Reason :=
| OnlyPatientCanPerform
| PatientRecordDoesNotExist
| AccessDeniedMessage
| NameCannotBeEmpty
| InvalidAge
| MedicalHistoryCannotBeEmpty
| InvalidDoctorAddress
| CannotGrantAccessToYourself
| AccessAlreadyGranted
| AccessNotGranted.

Definition message (r : Reason) : string :=
  match r with
  | OnlyPatientCanPerform => "Only patient can perform this action"
  | PatientRecordDoesNotExist => "Patient record does not exist"
  | AccessDeniedMessage => "Access denied"
  | NameCannotBeEmpty => "Name cannot be empty"
  | InvalidAge => "Invalid age"
  | MedicalHistoryCannotBeEmpty => "Medical history cannot be empty"
  | InvalidDoctorAddress => "Invalid doctor address"
  | CannotGrantAccessToYourself => "Cannot grant access to yourself"
  | AccessAlreadyGranted => "Access already granted"
  | AccessNotGranted => "Access not granted"
  end.

(** The error taxonomy of the specification, and the class of each message. *)
Inductive ErrorKind :=
| ValidationError | NotFound | InvalidDoctor | AlreadyGranted | NotGranted
| AccessDenied.

Definition kind (r : Reason) : ErrorKind :=
  match r with
  | OnlyPatientCanPerform => AccessDenied
  | PatientRecordDoesNotExist => NotFound
  | AccessDeniedMessage => AccessDenied
  | NameCannotBeEmpty => ValidationError
  | InvalidAge => ValidationError
  | MedicalHistoryCannotBeEmpty => ValidationError
  | InvalidDoctorAddress => InvalidDoctor
  | CannotGrantAccessToYourself => InvalidDoctor
  | AccessAlreadyGranted => AlreadyGranted
  | AccessNotGranted => NotGranted
  end.

(** ** The contract monad

    A computation runs on a state and either returns a value with the new
    state, or reverts with a reason.  [Revert] keeps the state at which the
    failing [require] was evaluated, so that "no write precedes a failing
    check" is a property to be proved and not one the model grants. *)
Inductive Result (A : Type) :=
| Ok (a : A) (s : State)
| Revert (r : Reason) (s : State).
Arguments Ok {A} a s.
Arguments Revert {A} r s.

Definition M (A : Type) : Type := State → Result A.

Definition ret {A} (a : A) : M A := λ s, Ok a s.

Definition bind {A B} (m : M A) (k : A → M B) : M B :=
  λ s, match m s with
       | Ok a s' => k a s'
       | Revert r s' => Revert r s'
       end.

Declare Scope sol_scope.
Delimit Scope sol_scope with sol.
Notation "'let*' x := m 'in' k" := (bind m (λ x, k))
  (at level 10, x name, m at level 100, k at level 200) : sol_scope.
Notation "m ;; k" := (bind m (λ _, k))
  (at level 100, k at level 200, right associativity) : sol_scope.

Definition require (c : bool) (r : Reason) : M unit :=
  λ s, if c then Ok tt s else Revert r s.

Definition get : M State := λ s, Ok s s.

Definition emit (e : Event) : M unit :=
  λ s, Ok tt (mkState (patientRecords s) (doctorAccess s) (patientDoctors s)
                      (events s ++ [e])).

(** What the chain keeps of a transaction: the state it reached, or the
    state before the call when it reverted. *)
Definition commit {A} (s : State) (r : Result A) : State :=
  match r with
  | Ok _ s' => s'
  | Revert _ _ => s
  end.

(** ** Storage access *)

Definition record (s : State) (p : address) : MedicalRecord.t :=
  patientRecords s !!! p.

Definition permission (s : State) (p d : address) : AccessPermission.t :=
  (doctorAccess s !!! p) !!! d.

Definition doctors (s : State) (p : address) : list address :=
  patientDoctors s !!! p.

Definition set_record (p : address) (r : MedicalRecord.t) : M unit :=
  λ s, Ok tt (mkState (<[p := r]> (patientRecords s)) (doctorAccess s)
                      (patientDoctors s) (events s)).

Definition set_permission (p d : address) (a : AccessPermission.t) : M unit :=
  λ s, Ok tt (mkState (patientRecords s)
                      (<[p := <[d := a]> (doctorAccess s !!! p)]> (doctorAccess s))
                      (patientDoctors s) (events s)).

Definition set_doctors (p : address) (l : list address) : M unit :=
  λ s, Ok tt (mkState (patientRecords s) (doctorAccess s)
                      (<[p := l]> (patientDoctors s)) (events s)).

(** ** Modifiers *)

Section Contract.
Variable env : Env.
Local Open Scope sol_scope.

Definition onlyPatient {A} (_patient : address) (body : M A) : M A :=
  require (sender env =? _patient) OnlyPatientCanPerform ;;
  body.

Definition patientExists {A} (_patient : address) (body : M A) : M A :=
  let* s := get in
  require (MedicalRecord.exists_ (record s _patient)) PatientRecordDoesNotExist ;;
  body.

(** The condition of the [hasAccess] modifier. *)
Definition authorized (_patient : address) (s : State) : bool :=
  (sender env =? _patient) ||
  (AccessPermission.granted (permission s _patient (sender env)) &&
   (AccessPermission.doctor (permission s _patient (sender env)) =? sender env)).

Definition hasAccess {A} (_patient : address) (body : M A) : M A :=
  let* s := get in
  require (authorized _patient s) AccessDeniedMessage ;;
  body.

(** ** Functions *)

Definition addMedicalRecord (_name : string) (_age : uint256)
    (_medicalHistory _ipfsHash : string) : M unit :=
  require (0 <? String.length _name)%nat NameCannotBeEmpty ;;
  require ((0 <? _age) && (_age <? 150)) InvalidAge ;;
  require (0 <? String.length _medicalHistory)%nat MedicalHistoryCannotBeEmpty ;;
  set_record (sender env)
    (MedicalRecord.mk _name _age _medicalHistory _ipfsHash (now env) true) ;;
  emit (MedicalRecordAdded (sender env) _name _age (now env)).

Definition grantAccess (_doctor : address) : M unit :=
  onlyPatient (sender env) (patientExists (sender env) (
    require (negb (_doctor =? 0)) InvalidDoctorAddress ;;
    require (negb (_doctor =? sender env)) CannotGrantAccessToYourself ;;
    let* s := get in
    require (negb (AccessPermission.granted (permission s (sender env) _doctor)))
            AccessAlreadyGranted ;;
    set_permission (sender env) _doctor
      (AccessPermission.mk _doctor true (now env)) ;;
    let* s := get in
    set_doctors (sender env) (doctors s (sender env) ++ [_doctor]) ;;
    emit (AccessGranted (sender env) _doctor (now env)))).

(** The loop of [revokeAccess]: [n] iterations remain, [i] is the index.
    At the first [i] with [doctors[i] == _doctor] the last element is
    copied into slot [i], the last slot is popped and the loop breaks.  The
    array is not written before the break, so [length ds] iterations exhaust
    it, and both reads are in range ([i < length ds]): the bounds check of
    Solidity never fires. *)
Fixpoint removeLoop (n i : nat) (_doctor : address) (ds : list address)
    : list address :=
  match n with
  | O => ds
  | S n' =>
      if ds !!! i =? _doctor
      then removelast (<[i := ds !!! (length ds - 1)%nat]> ds)
      else removeLoop n' (S i) _doctor ds
  end.

Definition removeDoctor (_doctor : address) (ds : list address) : list address :=
  removeLoop (length ds) 0 _doctor ds.

Definition revokeAccess (_doctor : address) : M unit :=
  onlyPatient (sender env) (patientExists (sender env) (
    let* s := get in
    require (AccessPermission.granted (permission s (sender env) _doctor))
            AccessNotGranted ;;
    let* s := get in
    let a := permission s (sender env) _doctor in
    set_permission (sender env) _doctor
      (AccessPermission.mk (AccessPermission.doctor a) false
                           (AccessPermission.timestamp a)) ;;
    let* s := get in
    set_doctors (sender env) (removeDoctor _doctor (doctors s (sender env))) ;;
    emit (AccessRevoked (sender env) _doctor (now env)))).

Definition getMedicalRecord (_patient : address) : M MedicalRecord.t :=
  hasAccess _patient (patientExists _patient (
    let* s := get in
    ret (record s _patient))).

Definition accessMedicalRecord (_patient : address) : M MedicalRecord.t :=
  hasAccess _patient (patientExists _patient (
    (if negb (sender env =? _patient)
     then emit (RecordAccessed _patient (sender env) (now env))
     else ret tt) ;;
    let* s := get in
    ret (record s _patient))).

Definition checkAccess (_patient _doctor : address) : M bool :=
  let* s := get in
  ret (AccessPermission.granted (permission s _patient _doctor)).

Definition getAuthorizedDoctors (_patient : address) : M (list address) :=
  onlyPatient _patient (
    let* s := get in
    ret (doctors s _patient)).

Definition getMyRecord : M MedicalRecord.t :=
  patientExists (sender env) (
    let* s := get in
    ret (record s (sender env))).

Definition recordExists (_patient : address) : M bool :=
  let* s := get in
  ret (MedicalRecord.exists_ (record s _patient)).
End Contract.

(** ** Transactions

    The external interface of the contract: a call names a public function
    and its arguments.  [call] runs it, [step] is the state the chain keeps
    afterwards. *)
Inductive Call :=
| AddMedicalRecord (_name : string) (_age : uint256) (_medicalHistory _ipfsHash : string)
| GrantAccess (_doctor : address)
| RevokeAccess (_doctor : address)
| GetMedicalRecord (_patient : address)
| AccessMedicalRecord (_patient : address)
| CheckAccess (_patient _doctor : address)
| GetAuthorizedDoctors (_patient : address)
| GetMyRecord
| RecordExists (_patient : address).

Inductive Value :=
| VUnit
| VRecord (r : MedicalRecord.t)
| VBool (b : bool)
| VAddresses (l : list address).

Definition returning {A} (f : A → Value) (m : M A) : M Value :=
  bind m (λ a, ret (f a)).

Definition call (env : Env) (c : Call) : M Value :=
  match c with
  | AddMedicalRecord n a h i => returning (λ _, VUnit) (addMedicalRecord env n a h i)
  | GrantAccess d => returning (λ _, VUnit) (grantAccess env d)
  | RevokeAccess d => returning (λ _, VUnit) (revokeAccess env d)
  | GetMedicalRecord p => returning VRecord (getMedicalRecord env p)
  | AccessMedicalRecord p => returning VRecord (accessMedicalRecord env p)
  | CheckAccess p d => returning VBool (checkAccess p d)
  | GetAuthorizedDoctors p => returning VAddresses (getAuthorizedDoctors env p)
  | GetMyRecord => returning VRecord (getMyRecord env)
  | RecordExists p => returning VBool (recordExists p)
  end.

Definition step (env : Env) (c : Call) (s : State) : State :=
  commit s (call env c s).

(** The states of the contract: those that transactions produce from the
    state at deployment. *)
Inductive reachable : State → Prop :=
| reachable_init : reachable init
| reachable_step env c s : reachable s → reachable (step env c s).

(** Running a list of transactions, each with its own sender and time. *)
Definition run (txs : list (Env * Call)) (s : State) : State :=
  foldl (λ s tx, step (fst tx) (snd tx) s) s txs.

(** ** The states that successful calls produce

    These are the closed forms of the writes of each function; the
    equations below relate them to the code. *)

Definition recordAdded (env : Env) (n : string) (a : uint256) (h i : string)
    (s : State) : State :=
  mkState (<[sender env := MedicalRecord.mk n a h i (now env) true]> (patientRecords s))
          (doctorAccess s) (patientDoctors s)
          (events s ++ [MedicalRecordAdded (sender env) n a (now env)]).

Definition accessGranted (env : Env) (d : address) (s : State) : State :=
  mkState (patientRecords s)
          (<[sender env := <[d := AccessPermission.mk d true (now env)]>
                             (doctorAccess s !!! sender env)]> (doctorAccess s))
          (<[sender env := doctors s (sender env) ++ [d]]> (patientDoctors s))
          (events s ++ [AccessGranted (sender env) d (now env)]).

Definition accessRevoked (env : Env) (d : address) (s : State) : State :=
  mkState (patientRecords s)
          (<[sender env :=
               <[d := AccessPermission.mk
                        (AccessPermission.doctor (permission s (sender env) d)) false
                        (AccessPermission.timestamp (permission s (sender env) d))]>
                 (doctorAccess s !!! sender env)]> (doctorAccess s))
          (<[sender env := removeDoctor d (doctors s (sender env))]> (patientDoctors s))
          (events s ++ [AccessRevoked (sender env) d (now env)]).

Definition recordAccessed (env : Env) (p : address) (s : State) : State :=
  mkState (patientRecords s) (doctorAccess s) (patientDoctors s)
          (events s ++ [RecordAccessed p (sender env) (now env)]).

(** ** Consistency of the stored data

    What every state of the contract satisfies: a granted permission carries
    its own key in the [doctor] field, belongs to a patient with a record and
    to a doctor other than the patient and than the zero address, and the
    array of a patient lists exactly the granted doctors, each once. *)
Record consistent (s : State) : Prop := mkConsistent {
  granted_doctor : ∀ p d,
    AccessPermission.granted (permission s p d) = true →
    AccessPermission.doctor (permission s p d) = d;
  granted_record : ∀ p d,
    AccessPermission.granted (permission s p d) = true →
    MedicalRecord.exists_ (record s p) = true;
  granted_other : ∀ p d,
    AccessPermission.granted (permission s p d) = true → d ≠ p ∧ d ≠ 0;
  doctors_granted : ∀ p d,
    d ∈ doctors s p ↔ AccessPermission.granted (permission s p d) = true;
  doctors_NoDup : ∀ p, NoDup (doctors s p)
}.

(** ** Observing results *)

(** The class of the error a computation failed with, if it failed. *)
Definition failure {A} (r : Result A) : option ErrorKind :=
  match r with
  | Ok _ _ => None
  | Revert e _ => Some (kind e)
  end.

(** The calls that write: the three writers, and a read through
    [accessMedicalRecord] by somebody other than the patient. *)
Definition mutating (env : Env) (c : Call) : bool :=
  match c with
  | AddMedicalRecord _ _ _ _ | GrantAccess _ | RevokeAccess _ => true
  | AccessMedicalRecord p => negb (sender env =? p)
  | _ => false
  end.

(** Modelled from the spec: the sequence number of an event.  Solidity
    events carry no counter of their own; the chain keeps them in the order
    of emission.  The specification numbers them from 1 in that order, so the
    event at index [i] of the log has sequence [S i], and the next event to
    be appended gets [nextSequence]. *)
Definition sequenceAt (i : nat) : nat := S i.

(** Modelled from the spec: the sequence number that the next appended event
    gets. *)
Definition nextSequence (s : State) : nat := sequenceAt (length (events s)).

(** Modelled from the spec: [hasSequence s e n] says that the log of [s]
    holds event [e] under sequence number [n]. *)
Definition hasSequence (s : State) (e : Event) (n : nat) : Prop :=
  ∃ i, events s !! i = Some e ∧ n = sequenceAt i.

(** ** A concrete history

    Patient 1 registers and grants access to doctors 2, 3 and 4 in that
    order; then revokes doctor 2. *)
Definition ward : State :=
  run [(mkEnv 1 10, AddMedicalRecord "Jane Doe" 40 "Asthma" EmptyString);
       (mkEnv 1 11, GrantAccess 2);
       (mkEnv 1 12, GrantAccess 3);
       (mkEnv 1 13, GrantAccess 4)] init.

Definition ward_revoked : State := step (mkEnv 1 14) (RevokeAccess 2) ward.

(** Another history of patient 1 with the same grants at the same times,
    in which doctor 2 is revoked before doctors 3 and 4 are granted. *)
Definition ward_early_revoke : State :=
  run [(mkEnv 1 10, AddMedicalRecord "Jane Doe" 40 "Asthma" EmptyString);
       (mkEnv 1 11, GrantAccess 2);
       (mkEnv 1 11, RevokeAccess 2);
       (mkEnv 1 12, GrantAccess 3);
       (mkEnv 1 13, GrantAccess 4)] init.

(** ** What a transaction can do to the state

    [outcome env s c s']: the state [s'] that the chain keeps after call [c]
    on [s] is [s] itself, or one of the four states that the successful
    writing calls produce, reached under the conditions that the code
    checks first. *)
Inductive outcome (env : Env) (s : State) : Call → State → Prop :=
| outcome_unchanged c : outcome env s c s
| outcome_added n a h i :
    n ≠ EmptyString → 1 ≤ a ≤ 149 → h ≠ EmptyString →
    outcome env s (AddMedicalRecord n a h i) (recordAdded env n a h i s)
| outcome_granted d :
    MedicalRecord.exists_ (record s (sender env)) = true →
    d ≠ 0 → d ≠ sender env →
    AccessPermission.granted (permission s (sender env) d) = false →
    outcome env s (GrantAccess d) (accessGranted env d s)
| outcome_revoked d :
    MedicalRecord.exists_ (record s (sender env)) = true →
    AccessPermission.granted (permission s (sender env) d) = true →
    outcome env s (RevokeAccess d) (accessRevoked env d s)
| outcome_accessed p :
    sender env ≠ p →
    authorized env p s = true →
    MedicalRecord.exists_ (record s p) = true →
    outcome env s (AccessMedicalRecord p) (recordAccessed env p s).

(** The fields of a stored record satisfy the checks of
    [addMedicalRecord]. *)
Definition wellFormed (r : MedicalRecord.t) : Prop :=
  MedicalRecord.exists_ r = true ∧
  MedicalRecord.name r ≠ EmptyString ∧
  1 ≤ MedicalRecord.age r ≤ 149 ∧
  MedicalRecord.medicalHistory r ≠ EmptyString.

(** Every record slot holds a well-formed record or was never written. *)
Definition recordsValid (s : State) : Prop :=
  ∀ p, wellFormed (record s p) ∨ record s p = MedicalRecord.zero.

(** ** Replaying the event log

    What the log alone says about a pair of patient and doctor: whether the
    last [AccessGranted] or [AccessRevoked] event of the pair is a grant, and
    the time of the last [AccessGranted] event. *)
Definition replayPermission (p d : address) (a : bool * uint256) (e : Event)
    : bool * uint256 :=
  match e with
  | AccessGranted p' d' t => if decide (p' = p ∧ d' = d) then (true, t) else a
  | AccessRevoked p' d' _ => if decide (p' = p ∧ d' = d) then (false, snd a) else a
  | _ => a
  end.

Definition permissionInLog (log : list Event) (p d : address) : bool * uint256 :=
  foldl (replayPermission p d) (false, 0) log.

(** What the log alone says about a patient: the name, age and time of the
    last [MedicalRecordAdded] event of the patient, if there is one. *)
Definition replayRecord (p : address) (r : option (string * uint256 * uint256))
    (e : Event) : option (string * uint256 * uint256) :=
  match e with
  | MedicalRecordAdded p' n a t => if decide (p' = p) then Some (n, a, t) else r
  | _ => r
  end.

Definition recordInLog (log : list Event) (p : address)
    : option (string * uint256 * uint256) :=
  foldl (replayRecord p) None log.

(** The state agrees with its log on every permission. *)
Definition permissionsLogged (s : State) : Prop :=
  ∀ p d, (AccessPermission.granted (permission s p d),
          AccessPermission.timestamp (permission s p d))
         = permissionInLog (events s) p d.

(** Every logged access stands behind a grant that the log, up to that
    point, shows as standing. *)
Definition accessesCovered (log : list Event) : Prop :=
  ∀ l1 l2 p d t,
    log = l1 ++ RecordAccessed p d t :: l2 →
    d ≠ p ∧ fst (permissionInLog l1 p d) = true.

(** Two states hold the same data for address [a]: the same record, the same
    permissions given by [a] and the same list of doctors. *)
Definition sameData (a : address) (s1 s2 : State) : Prop :=
  record s1 a = record s2 a ∧
  (∀ d, permission s1 a d = permission s2 a d) ∧
  doctors s1 a = doctors s2 a.

(** * Proofs *)

(** ** The removal loop *)

Section RemoveLoop.
Implicit Types (d x : address) (ds pre l : list address).

Lemma last_cons_default x l d d' : List.last (x :: l) d = List.last (x :: l) d'.
Proof.
  revert x. induction l as [|y l IH]; intros x; [done|].
  change (List.last (y :: l) d = List.last (y :: l) d'). apply IH.
Qed.

Lemma lookup_total_last d l : (d :: l) !!! length l = List.last l d.
Proof.
  revert d. induction l as [|y l IH]; intros d; [done|].
  change ((y :: l) !!! length l = List.last (y :: l) d).
  rewrite IH. destruct l as [|z l]; [done|].
  change (List.last (z :: l) y = List.last (z :: l) d). apply last_cons_default.
Qed.

(** The loop leaves the array alone when the doctor is not in the part
    still to be scanned. *)
Lemma removeLoop_absent d l pre :
  d ∉ l → removeLoop (length l) (length pre) d (pre ++ l) = pre ++ l.
Proof.
  revert pre. induction l as [|x l IH]; intros pre Hd; [done|].
  apply not_elem_of_cons in Hd as [Hne Hd]. simpl.
  rewrite list_lookup_total_middle by done.
  destruct (N.eqb_spec x d) as [->|_]; [done|].
  assert (E : pre ++ x :: l = (pre ++ [x]) ++ l) by (by rewrite <- app_assoc).
  rewrite E.
  replace (S (length pre)) with (length (pre ++ [x]))
    by (rewrite length_app; simpl; lia).
  by apply IH.
Qed.

(** At the first occurrence the last element is copied over it and the
    last slot is dropped. *)
Lemma removeLoop_found d l1 l2 pre :
  d ∉ l1 →
  removeLoop (length (l1 ++ d :: l2)) (length pre) d (pre ++ l1 ++ d :: l2)
  = removelast (pre ++ l1 ++ List.last l2 d :: l2).
Proof.
  revert pre. induction l1 as [|x l1 IH]; intros pre Hd; simpl.
  - rewrite list_lookup_total_middle by done. rewrite N.eqb_refl.
    rewrite insert_app_r_alt by lia. rewrite Nat.sub_diag. simpl.
    do 2 f_equal. f_equal.
    rewrite length_app. simpl.
    replace (length pre + S (length l2) - 1)%nat with (length pre + length l2)%nat by lia.
    rewrite lookup_total_app_r by lia.
    replace (length pre + length l2 - length pre)%nat with (length l2) by lia.
    apply lookup_total_last.
  - apply not_elem_of_cons in Hd as [Hne Hd].
    rewrite list_lookup_total_middle by done.
    destruct (N.eqb_spec x d) as [->|_]; [done|].
    assert (E : ∀ l, pre ++ x :: l = (pre ++ [x]) ++ l)
      by (intros l; by rewrite <- app_assoc).
    rewrite (E (l1 ++ d :: l2)), (E (l1 ++ List.last l2 d :: l2)).
    replace (S (length pre)) with (length (pre ++ [x]))
      by (rewrite length_app; simpl; lia).
    by apply IH.
Qed.

Lemma removeDoctor_absent d ds : d ∉ ds → removeDoctor d ds = ds.
Proof. intros Hd. exact (removeLoop_absent d ds [] Hd). Qed.

Lemma removeDoctor_found d l1 l2 :
  d ∉ l1 →
  removeDoctor d (l1 ++ d :: l2)
  = match l2 with
    | [] => l1
    | _ :: _ => l1 ++ List.last l2 d :: removelast l2
    end.
Proof.
  intros Hd. unfold removeDoctor.
  pose proof (removeLoop_found d l1 l2 [] Hd) as E. simpl in E |- *.
  rewrite E. clear E.
  destruct l2 as [|y l2].
  - simpl. by rewrite removelast_last.
  - by rewrite removelast_app.
Qed.

Lemma last_removelast_perm x l d :
  List.last (x :: l) d :: removelast (x :: l) ≡ₚ x :: l.
Proof.
  rewrite (app_removelast_last (l := x :: l) d) at 3 by done.
  by rewrite Permutation_app_comm.
Qed.

(** Removal takes out one occurrence of the doctor and nothing else. *)
Lemma removeDoctor_perm d ds : d ∈ ds → d :: removeDoctor d ds ≡ₚ ds.
Proof.
  intros Hd. apply list_elem_of_split_l in Hd as (l1 & l2 & -> & Hd).
  rewrite removeDoctor_found by done.
  destruct l2 as [|y l2].
  - by rewrite <- Permutation_middle, app_nil_r.
  - rewrite <- (Permutation_middle l1 (y :: l2) d).
    apply perm_skip, Permutation_app_head, last_removelast_perm.
Qed.

Lemma removeDoctor_NoDup d ds : NoDup ds → NoDup (removeDoctor d ds).
Proof.
  intros Hnd. destruct (decide (d ∈ ds)) as [Hd|Hd].
  - rewrite <- (removeDoctor_perm d ds Hd) in Hnd.
    by apply NoDup_cons in Hnd as [_ ?].
  - by rewrite removeDoctor_absent.
Qed.

Lemma removeDoctor_elem d ds x :
  NoDup ds → x ∈ removeDoctor d ds ↔ x ∈ ds ∧ x ≠ d.
Proof.
  intros Hnd. destruct (decide (d ∈ ds)) as [Hd|Hd].
  - pose proof (removeDoctor_perm d ds Hd) as Hp.
    assert (Hds : x ∈ ds ↔ x ∈ d :: removeDoctor d ds) by (by rewrite Hp).
    rewrite <- Hp in Hnd. apply NoDup_cons in Hnd as [Hnot _].
    rewrite Hds, elem_of_cons. split.
    + intros Hx. split; [by right|]. by intros ->.
    + by intros [[?|?] ?].
  - rewrite removeDoctor_absent by done. split; [|by intros [? _]].
    intros Hx. split; [done|]. by intros ->.
Qed.

Lemma removeDoctor_filter d ds :
  NoDup ds → removeDoctor d ds ≡ₚ filter (λ x, x ≠ d) ds.
Proof.
  intros Hnd. apply NoDup_Permutation.
  - by apply removeDoctor_NoDup.
  - by apply NoDup_filter.
  - intros x. rewrite removeDoctor_elem by done.
    by rewrite list_elem_of_filter, (comm and).
Qed.
End RemoveLoop.

(** ** Equations of the functions *)

Ltac unfold_sol :=
  unfold returning, onlyPatient, patientExists, hasAccess, bind, require, get,
    ret, emit, set_record, set_permission, set_doctors; simpl.

Lemma length_pos_nonempty (n : string) :
  (0 <? String.length n)%nat = negb (String.eqb n EmptyString).
Proof. by destruct n. Qed.

Lemma addMedicalRecord_eq env n a h i s :
  addMedicalRecord env n a h i s =
  if String.eqb n EmptyString then Revert NameCannotBeEmpty s
  else if negb ((0 <? a) && (a <? 150)) then Revert InvalidAge s
  else if String.eqb h EmptyString then Revert MedicalHistoryCannotBeEmpty s
  else Ok tt (recordAdded env n a h i s).
Proof.
  unfold addMedicalRecord. unfold_sol. rewrite !length_pos_nonempty.
  destruct (String.eqb n EmptyString); [done|]. simpl.
  destruct ((0 <? a) && (a <? 150)); [|done]. simpl.
  by destruct (String.eqb h EmptyString).
Qed.

Lemma grantAccess_eq env d s :
  grantAccess env d s =
  if negb (MedicalRecord.exists_ (record s (sender env)))
  then Revert PatientRecordDoesNotExist s
  else if d =? 0 then Revert InvalidDoctorAddress s
  else if d =? sender env then Revert CannotGrantAccessToYourself s
  else if AccessPermission.granted (permission s (sender env) d)
  then Revert AccessAlreadyGranted s
  else Ok tt (accessGranted env d s).
Proof.
  unfold grantAccess. unfold_sol. rewrite N.eqb_refl.
  destruct (MedicalRecord.exists_ _); [|done]. simpl.
  destruct (d =? 0); [done|]. simpl.
  destruct (d =? sender env); [done|]. simpl.
  by destruct (AccessPermission.granted _).
Qed.

Lemma revokeAccess_eq env d s :
  revokeAccess env d s =
  if negb (MedicalRecord.exists_ (record s (sender env)))
  then Revert PatientRecordDoesNotExist s
  else if negb (AccessPermission.granted (permission s (sender env) d))
  then Revert AccessNotGranted s
  else Ok tt (accessRevoked env d s).
Proof.
  unfold revokeAccess. unfold_sol. rewrite N.eqb_refl.
  destruct (MedicalRecord.exists_ _); [|done]. simpl.
  by destruct (AccessPermission.granted _).
Qed.

Lemma getMedicalRecord_eq env p s :
  getMedicalRecord env p s =
  if negb (authorized env p s) then Revert AccessDeniedMessage s
  else if negb (MedicalRecord.exists_ (record s p))
  then Revert PatientRecordDoesNotExist s
  else Ok (record s p) s.
Proof.
  unfold getMedicalRecord. unfold_sol.
  destruct (authorized env p s); [|done]. simpl.
  by destruct (MedicalRecord.exists_ _).
Qed.

Lemma accessMedicalRecord_eq env p s :
  accessMedicalRecord env p s =
  if negb (authorized env p s) then Revert AccessDeniedMessage s
  else if negb (MedicalRecord.exists_ (record s p))
  then Revert PatientRecordDoesNotExist s
  else if sender env =? p then Ok (record s p) s
  else Ok (record s p) (recordAccessed env p s).
Proof.
  unfold accessMedicalRecord. unfold_sol.
  destruct (authorized env p s); [|done]. simpl.
  destruct (MedicalRecord.exists_ _); [|done]. simpl.
  by destruct (sender env =? p).
Qed.

Lemma getAuthorizedDoctors_eq env p s :
  getAuthorizedDoctors env p s =
  if sender env =? p then Ok (doctors s p) s else Revert OnlyPatientCanPerform s.
Proof. unfold getAuthorizedDoctors. unfold_sol. by destruct (sender env =? p). Qed.

Lemma getMyRecord_eq env s :
  getMyRecord env s =
  if MedicalRecord.exists_ (record s (sender env))
  then Ok (record s (sender env)) s else Revert PatientRecordDoesNotExist s.
Proof. unfold getMyRecord. unfold_sol. by destruct (MedicalRecord.exists_ _). Qed.

(** ** Reading the states that the calls produce *)

Lemma lookup_total_nested (m : gmap address (gmap address AccessPermission.t))
    p d a p' d' :
  (<[p := <[d := a]> (m !!! p)]> m !!! p') !!! d'
  = if decide (p' = p ∧ d' = d) then a else (m !!! p') !!! d'.
Proof.
  destruct (decide (p' = p)) as [->|Hp].
  - rewrite lookup_total_insert_eq.
    destruct (decide (d' = d)) as [->|Hd].
    + rewrite lookup_total_insert_eq. by rewrite decide_True.
    + rewrite lookup_total_insert_ne by done. rewrite decide_False; [done|]. by intros [_ ?].
  - rewrite lookup_total_insert_ne by done. rewrite decide_False; [done|]. by intros [? _].
Qed.

Lemma permission_accessGranted env d s p' d' :
  permission (accessGranted env d s) p' d'
  = if decide (p' = sender env ∧ d' = d)
    then AccessPermission.mk d true (now env) else permission s p' d'.
Proof. apply lookup_total_nested. Qed.

Lemma permission_accessRevoked env d s p' d' :
  permission (accessRevoked env d s) p' d'
  = if decide (p' = sender env ∧ d' = d)
    then AccessPermission.mk (AccessPermission.doctor (permission s (sender env) d))
           false (AccessPermission.timestamp (permission s (sender env) d))
    else permission s p' d'.
Proof. apply lookup_total_nested. Qed.

Lemma doctors_accessGranted env d s p' :
  doctors (accessGranted env d s) p'
  = if decide (p' = sender env) then doctors s p' ++ [d] else doctors s p'.
Proof.
  unfold doctors at 1. simpl. rewrite lookup_total_insert.
  destruct (decide (sender env = p')) as [->|?].
  - by rewrite decide_True.
  - by rewrite decide_False.
Qed.

Lemma doctors_accessRevoked env d s p' :
  doctors (accessRevoked env d s) p'
  = if decide (p' = sender env) then removeDoctor d (doctors s p') else doctors s p'.
Proof.
  unfold doctors at 1. simpl. rewrite lookup_total_insert.
  destruct (decide (sender env = p')) as [->|?].
  - by rewrite decide_True.
  - by rewrite decide_False.
Qed.

Lemma record_recordAdded env n a h i s p' :
  record (recordAdded env n a h i s) p'
  = if decide (p' = sender env)
    then MedicalRecord.mk n a h i (now env) true else record s p'.
Proof.
  unfold record at 1. simpl. rewrite lookup_total_insert.
  destruct (decide (sender env = p')) as [->|?].
  - by rewrite decide_True.
  - by rewrite decide_False.
Qed.

(** ** The consistency invariant *)

Lemma consistent_init : consistent init.
Proof.
  split; unfold permission, doctors, record; simpl; intros p; try intros d;
    rewrite ?lookup_total_empty; simpl; rewrite ?lookup_total_empty; simpl;
    try done.
  - split; [|done]. by intros ?%elem_of_nil.
  - apply NoDup_nil_2.
Qed.

Lemma consistent_recordAdded env n a h i s :
  consistent s → consistent (recordAdded env n a h i s).
Proof.
  intros [H1 H2 H3 H4 H5]. split; try done.
  intros p d Hg. rewrite record_recordAdded. case_decide; [done|].
  by apply (H2 p d).
Qed.

Lemma consistent_recordAccessed env p s :
  consistent s → consistent (recordAccessed env p s).
Proof. by intros [H1 H2 H3 H4 H5]. Qed.

Lemma consistent_accessGranted env d s :
  consistent s →
  MedicalRecord.exists_ (record s (sender env)) = true →
  d ≠ 0 → d ≠ sender env →
  AccessPermission.granted (permission s (sender env) d) = false →
  consistent (accessGranted env d s).
Proof.
  intros [H1 H2 H3 H4 H5] Hrec Hzero Hself Hnot. split.
  - intros p' d'. rewrite permission_accessGranted.
    case_decide as Hk; [by destruct Hk as [_ ->]|]. apply H1.
  - intros p' d'. rewrite permission_accessGranted.
    case_decide as Hk; [by destruct Hk as [-> _]|]. apply H2.
  - intros p' d'. rewrite permission_accessGranted.
    case_decide as Hk; [by destruct Hk as [-> ->]|]. apply H3.
  - intros p' d'. rewrite permission_accessGranted, doctors_accessGranted.
    destruct (decide (p' = sender env)) as [->|Hp].
    + rewrite elem_of_app, list_elem_of_singleton, H4.
      destruct (decide (d' = d)) as [->|Hd].
      * rewrite decide_True by done. simpl. split; [done|by right].
      * rewrite decide_False by (by intros [_ ?]).
        split; [by intros [?|?]|by left].
    + rewrite decide_False by (by intros [? _]). apply H4.
  - intros p'. rewrite doctors_accessGranted. case_decide as Hp; [|apply H5].
    subst p'. apply NoDup_app. split; [apply H5|]. split; [|apply NoDup_singleton].
    intros x Hx ->%list_elem_of_singleton. apply H4 in Hx. congruence.
Qed.

Lemma consistent_accessRevoked env d s :
  consistent s → consistent (accessRevoked env d s).
Proof.
  intros [H1 H2 H3 H4 H5]. split.
  - intros p' d'. rewrite permission_accessRevoked.
    case_decide as Hk; [done|]. apply H1.
  - intros p' d'. rewrite permission_accessRevoked.
    case_decide as Hk; [done|]. apply H2.
  - intros p' d'. rewrite permission_accessRevoked.
    case_decide as Hk; [done|]. apply H3.
  - intros p' d'. rewrite permission_accessRevoked, doctors_accessRevoked.
    destruct (decide (p' = sender env)) as [->|Hp].
    + rewrite removeDoctor_elem by apply H5. rewrite H4.
      destruct (decide (d' = d)) as [->|Hd].
      * rewrite decide_True by done. simpl. split; [by intros [_ ?]|done].
      * rewrite decide_False by (by intros [_ ?]).
        split; [by intros [? _]|done].
    + rewrite decide_False by (by intros [? _]). apply H4.
  - intros p'. rewrite doctors_accessRevoked. case_decide as Hp; [|apply H5].
    apply removeDoctor_NoDup, H5.
Qed.

Ltac branch :=
  match goal with
  | |- context [if ?b then _ else _] => destruct b eqn:?; simpl; try done
  end.

Lemma consistent_step env c s : consistent s → consistent (step env c s).
Proof.
  intros Hs. unfold step, call, returning, bind.
  destruct c as [n a h i|d|d|p|p|p d|p| |p]; simpl.
  - rewrite addMedicalRecord_eq. repeat branch.
    by apply consistent_recordAdded.
  - rewrite grantAccess_eq. repeat branch.
    apply consistent_accessGranted; try done.
    + by destruct (MedicalRecord.exists_ _).
    + by apply N.eqb_neq.
    + by apply N.eqb_neq.
  - rewrite revokeAccess_eq. repeat branch.
    by apply consistent_accessRevoked.
  - rewrite getMedicalRecord_eq. by repeat branch.
  - rewrite accessMedicalRecord_eq. repeat branch.
    by apply consistent_recordAccessed.
  - done.
  - rewrite getAuthorizedDoctors_eq. by repeat branch.
  - rewrite getMyRecord_eq. by repeat branch.
  - done.
Qed.

Lemma reachable_consistent s : reachable s → consistent s.
Proof.
  induction 1 as [|env c s _ IH]; [apply consistent_init|].
  by apply consistent_step.
Qed.

Lemma reachable_run txs s : reachable s → reachable (run txs s).
Proof.
  revert s. induction txs as [|[env c] txs IH]; intros s Hs; [done|].
  apply IH. by apply reachable_step.
Qed.

Lemma reachable_ward : reachable ward.
Proof. apply reachable_run, reachable_init. Qed.

Lemma reachable_ward_revoked : reachable ward_revoked.
Proof. apply reachable_step, reachable_ward. Qed.

(** ** Successful calls, read off the equations *)

Lemma grantAccess_Ok env d s s' :
  grantAccess env d s = Ok tt s' →
  s' = accessGranted env d s ∧
  MedicalRecord.exists_ (record s (sender env)) = true ∧
  d ≠ 0 ∧ d ≠ sender env ∧
  AccessPermission.granted (permission s (sender env) d) = false.
Proof.
  rewrite grantAccess_eq. repeat branch. intros [= <-].
  repeat split; try done.
  - by destruct (MedicalRecord.exists_ _).
  - by apply N.eqb_neq.
  - by apply N.eqb_neq.
Qed.

Lemma revokeAccess_Ok env d s s' :
  revokeAccess env d s = Ok tt s' →
  s' = accessRevoked env d s ∧
  MedicalRecord.exists_ (record s (sender env)) = true ∧
  AccessPermission.granted (permission s (sender env) d) = true.
Proof.
  rewrite revokeAccess_eq. repeat branch. intros [= <-].
  repeat split.
  - by destruct (MedicalRecord.exists_ _).
  - by destruct (AccessPermission.granted _).
Qed.

(** ** The list of authorized doctors *)

(** C1, as the specification words it, does not hold: after patient 1 has
    granted doctors 2, 3 and 4 in that order and revoked doctor 2, the list
    is [4; 3], while removing 2 and keeping the order of the others would
    give [3; 4]. *)
Lemma revoke_reorders_doctors :
  reachable ward ∧
  getAuthorizedDoctors (mkEnv 1 14) 1 ward = Ok [2; 3; 4] ward ∧
  revokeAccess (mkEnv 1 14) 2 ward = Ok tt ward_revoked ∧
  getAuthorizedDoctors (mkEnv 1 15) 1 ward_revoked = Ok [4; 3] ward_revoked ∧
  filter (λ x, x ≠ 2) [2; 3; 4] = [3; 4] ∧
  [4; 3] ≠ [3; 4].
Proof.
  split; [apply reachable_ward|].
  split; [by vm_compute|]. split; [by vm_compute|]. split; [by vm_compute|].
  split; [by vm_compute|]. discriminate.
Qed.

Lemma checkAccess_eq p d s :
  checkAccess p d s = Ok (AccessPermission.granted (permission s p d)) s.
Proof. done. Qed.

Lemma checkAccess_true p d s :
  checkAccess p d s = Ok true s ↔ AccessPermission.granted (permission s p d) = true.
Proof. rewrite checkAccess_eq. split; [by intros [= ->]|by intros ->]. Qed.

Lemma checkAccess_false p d s :
  checkAccess p d s = Ok false s ↔ AccessPermission.granted (permission s p d) = false.
Proof. rewrite checkAccess_eq. split; [by intros [= ->]|by intros ->]. Qed.

Lemma grant_appends env d s s' :
  grantAccess env d s = Ok tt s' →
  doctors s' (sender env) = doctors s (sender env) ++ [d].
Proof.
  intros (-> & _)%grantAccess_Ok. rewrite doctors_accessGranted.
  by rewrite decide_True.
Qed.

(** What the loop does to an array without duplicates that holds the
    doctor: the array splits around the doctor, and the last element of the
    part behind it (if there is one) takes its place. *)
Lemma removeDoctor_shape d ds :
  NoDup ds → d ∈ ds →
  ∃ l1 l2, ds = l1 ++ d :: l2 ∧ (d ∉ l1) ∧ (d ∉ l2) ∧
    removeDoctor d ds = match l2 with
                        | [] => l1
                        | _ :: _ => l1 ++ List.last l2 d :: removelast l2
                        end.
Proof.
  intros Hnd Hd. apply list_elem_of_split_l in Hd as (l1 & l2 & -> & Hd).
  exists l1, l2. split; [done|]. split; [done|]. split.
  - apply NoDup_app in Hnd as (_ & _ & Hnd). by apply NoDup_cons in Hnd as [? _].
  - by apply removeDoctor_found.
Qed.

(** C1 (amended): in every state of the contract, and for every patient,
    the list of the patient holds exactly the doctors currently granted,
    each once, and [getAuthorizedDoctors] returns it to the patient; a
    successful grant appends the doctor at the end of the list of the
    caller; a successful revoke of [d] removes [d] by moving the last entry
    of the list into the slot of [d]: the entries before [d] stay where they
    are, the last entry takes the place of [d], and the entries in between
    keep their order, so that the result holds the other entries, as a
    permutation of them.  Neither call touches the list of anybody else. *)
Theorem doctor_list_grant_appends_revoke_swaps s :
  reachable s →
  (∀ p,
     (∀ env, sender env = p → getAuthorizedDoctors env p s = Ok (doctors s p) s) ∧
     (∀ x, x ∈ doctors s p ↔ checkAccess p x s = Ok true s) ∧
     NoDup (doctors s p)) ∧
  (∀ env d s', grantAccess env d s = Ok tt s' →
     doctors s' (sender env) = doctors s (sender env) ++ [d] ∧
     (∀ q, q ≠ sender env → doctors s' q = doctors s q)) ∧
  (∀ env d s', revokeAccess env d s = Ok tt s' →
     (∃ l1 l2,
        doctors s (sender env) = l1 ++ d :: l2 ∧ (d ∉ l1) ∧ (d ∉ l2) ∧
        doctors s' (sender env) = match l2 with
                                  | [] => l1
                                  | _ :: _ => l1 ++ List.last l2 d :: removelast l2
                                  end) ∧
     doctors s' (sender env) ≡ₚ filter (λ x, x ≠ d) (doctors s (sender env)) ∧
     (∀ q, q ≠ sender env → doctors s' q = doctors s q)).
Proof.
  intros Hs. pose proof (reachable_consistent s Hs) as Hc.
  split; [|split].
  - intros p. split; [|split].
    + intros env <-. by rewrite getAuthorizedDoctors_eq, N.eqb_refl.
    + intros x. rewrite checkAccess_true. apply Hc.
    + apply Hc.
  - intros env d s' Hg. split; [by apply grant_appends|].
    apply grantAccess_Ok in Hg as (-> & _). intros q Hq.
    rewrite doctors_accessGranted. by rewrite decide_False.
  - intros env d s' (-> & _ & Hg)%revokeAccess_Ok.
    rewrite doctors_accessRevoked, decide_True by done.
    split; [apply removeDoctor_shape; [apply Hc|by apply Hc]|].
    split; [apply removeDoctor_filter, Hc|].
    intros q Hq. rewrite doctors_accessRevoked. by rewrite decide_False.
Qed.

Lemma doctor_list_grant_appends_revoke_swaps_witness :
  (∀ p,
     (∀ env, sender env = p → getAuthorizedDoctors env p ward = Ok (doctors ward p) ward) ∧
     (∀ x, x ∈ doctors ward p ↔ checkAccess p x ward = Ok true ward) ∧
     NoDup (doctors ward p)) ∧
  (∀ env d s', grantAccess env d ward = Ok tt s' →
     doctors s' (sender env) = doctors ward (sender env) ++ [d] ∧
     (∀ q, q ≠ sender env → doctors s' q = doctors ward q)) ∧
  (∀ env d s', revokeAccess env d ward = Ok tt s' →
     (∃ l1 l2,
        doctors ward (sender env) = l1 ++ d :: l2 ∧ (d ∉ l1) ∧ (d ∉ l2) ∧
        doctors s' (sender env) = match l2 with
                                  | [] => l1
                                  | _ :: _ => l1 ++ List.last l2 d :: removelast l2
                                  end) ∧
     doctors s' (sender env) ≡ₚ filter (λ x, x ≠ d) (doctors ward (sender env)) ∧
     (∀ q, q ≠ sender env → doctors s' q = doctors ward q)).
Proof. apply (doctor_list_grant_appends_revoke_swaps ward), reachable_ward. Defined.

(** The amended statement at work on the history above: the first grant of
    patient 1 starts the list, the next ones append, and the revoke of
    doctor 2 brings doctor 4 to the front. *)
Example doctor_list_history :
  doctors (run [(mkEnv 1 10, AddMedicalRecord "Jane Doe" 40 "Asthma" EmptyString);
                (mkEnv 1 11, GrantAccess 2)] init) 1 = [2] ∧
  doctors ward 1 = [2; 3; 4] ∧
  doctors ward_revoked 1 = [4; 3].
Proof. by vm_compute. Qed.

(** ** Reading a record *)

(** In a consistent state the [doctor] field of a granted permission is the
    caller, so the modifier reduces to "the patient, or a granted doctor". *)
Lemma authorized_check env p s :
  consistent s →
  authorized env p s = true ↔
  sender env = p ∨ checkAccess p (sender env) s = Ok true s.
Proof.
  intros Hc. unfold authorized. rewrite checkAccess_true.
  rewrite orb_true_iff, andb_true_iff, N.eqb_eq, N.eqb_eq. split.
  - intros [?|[? _]]; [by left|by right].
  - intros [?|Hg]; [by left|right]. split; [done|]. by apply Hc.
Qed.

Lemma granted_has_record p d s :
  consistent s → checkAccess p d s = Ok true s →
  MedicalRecord.exists_ (record s p) = true.
Proof. intros Hc Hg%checkAccess_true. by apply (granted_record s Hc p d). Qed.

(** C2, as the specification words it, does not hold: a patient without a
    record who reads the own record is the patient ([C == P]), and the read
    fails, with [NotFound]. *)
Lemma self_read_without_record_fails :
  reachable init ∧
  sender (mkEnv 1 1) = 1 ∧
  accessMedicalRecord (mkEnv 1 1) 1 init = Revert PatientRecordDoesNotExist init ∧
  failure (accessMedicalRecord (mkEnv 1 1) 1 init) = Some NotFound.
Proof. split; [apply reachable_init|]. by vm_compute. Qed.

(** C2 (amended): a read fails with [AccessDenied] exactly when the caller
    is neither the patient nor a doctor for whom [checkAccess] is true,
    whether the patient has a record or not ([AccessDenied] comes before
    [NotFound]); a caller who is the patient or a granted doctor gets
    [NotFound] when the patient has no record, and the record of the patient
    when there is one. *)
Theorem read_outcome env p s :
  reachable s →
  (failure (accessMedicalRecord env p s) = Some AccessDenied ↔
     ¬ (sender env = p ∨ checkAccess p (sender env) s = Ok true s)) ∧
  (failure (accessMedicalRecord env p s) = Some NotFound ↔
     (sender env = p ∨ checkAccess p (sender env) s = Ok true s) ∧
     recordExists p s = Ok false s) ∧
  ((∃ s', accessMedicalRecord env p s = Ok (record s p) s') ↔
     (sender env = p ∨ checkAccess p (sender env) s = Ok true s) ∧
     recordExists p s = Ok true s) ∧
  (∀ r s', accessMedicalRecord env p s = Ok r s' → r = record s p).
Proof.
  intros Hs. pose proof (reachable_consistent s Hs) as Hc.
  pose proof (authorized_check env p s Hc) as Ha.
  rewrite accessMedicalRecord_eq. unfold recordExists, bind, get, ret.
  destruct (authorized env p s) eqn:Hauth; simpl.
  - assert (Hyes : sender env = p ∨ checkAccess p (sender env) s = Ok true s)
      by (by apply Ha).
    destruct (MedicalRecord.exists_ (record s p)) eqn:Hex; simpl.
    + assert (Hok : failure (if sender env =? p
                             then Ok (record s p) s
                             else Ok (record s p) (recordAccessed env p s)) = None)
        by (by destruct (sender env =? p)).
      rewrite Hok. split; [|split; [|split]].
      * split; [done|]. by intros [].
      * split; [done|]. by intros [_ [=]].
      * split; [done|]. intros _. destruct (sender env =? p); by eexists.
      * intros r s'. by destruct (sender env =? p); intros [= <- _].
    + split; [|split; [|split]].
      * split; [done|]. by intros [].
      * by split.
      * split; [by intros [? [=]]|]. by intros [_ [=]].
      * done.
  - assert (Hno : ¬ (sender env = p ∨ checkAccess p (sender env) s = Ok true s)).
    { intros Hyes. apply Ha in Hyes. congruence. }
    split; [|split; [|split]].
    + by split.
    + split; [done|]. by intros [? _].
    + split; [by intros [? [=]]|]. by intros [? _].
    + done.
Qed.

Lemma read_outcome_witness :
  (failure (accessMedicalRecord (mkEnv 5 20) 1 ward) = Some AccessDenied ↔
     ¬ (sender (mkEnv 5 20) = 1 ∨ checkAccess 1 (sender (mkEnv 5 20)) ward = Ok true ward)) ∧
  (failure (accessMedicalRecord (mkEnv 5 20) 1 ward) = Some NotFound ↔
     (sender (mkEnv 5 20) = 1 ∨ checkAccess 1 (sender (mkEnv 5 20)) ward = Ok true ward) ∧
     recordExists 1 ward = Ok false ward) ∧
  ((∃ s', accessMedicalRecord (mkEnv 5 20) 1 ward = Ok (record ward 1) s') ↔
     (sender (mkEnv 5 20) = 1 ∨ checkAccess 1 (sender (mkEnv 5 20)) ward = Ok true ward) ∧
     recordExists 1 ward = Ok true ward) ∧
  (∀ r s', accessMedicalRecord (mkEnv 5 20) 1 ward = Ok r s' → r = record ward 1).
Proof. apply (read_outcome (mkEnv 5 20) 1 ward), reachable_ward. Defined.

(** C5: a successful read through [accessMedicalRecord] appends a
    [RecordAccessed] event, and only that, exactly when the caller is not the
    patient; a read by the patient leaves the log as it was. *)
Theorem read_logged_iff_third_party env p s r s' :
  accessMedicalRecord env p s = Ok r s' →
  (sender env ≠ p ∧
   events s' = events s ++ [RecordAccessed p (sender env) (now env)]) ∨
  (sender env = p ∧ events s' = events s).
Proof.
  rewrite accessMedicalRecord_eq. repeat branch.
  - intros [= _ <-]. right. split; [by apply N.eqb_eq|done].
  - intros [= _ <-]. left. split; [by apply N.eqb_neq|done].
Qed.

Lemma read_logged_iff_third_party_witness :
  (sender (mkEnv 3 20) ≠ 1 ∧
   events (recordAccessed (mkEnv 3 20) 1 ward)
   = events ward ++ [RecordAccessed 1 (sender (mkEnv 3 20)) (now (mkEnv 3 20))]) ∨
  (sender (mkEnv 3 20) = 1 ∧ events (recordAccessed (mkEnv 3 20) 1 ward) = events ward).
Proof.
  apply (read_logged_iff_third_party (mkEnv 3 20) 1 ward (record ward 1)).
  vm_compute. reflexivity.
Defined.

(** C10: [getMedicalRecord] has the authorization of
    [accessMedicalRecord] (the same calls succeed, with the same record, and
    the same calls fail, with the same error) and never changes the state;
    in the history above doctor 3, granted by patient 1, reads the record of
    patient 1 through it and the event log stays as it was, while the same
    read through [accessMedicalRecord] appends [RecordAccessed]. *)
Theorem getMedicalRecord_bypasses_log :
  (∀ env p s,
     failure (getMedicalRecord env p s) = failure (accessMedicalRecord env p s) ∧
     (∀ r, (∃ s', getMedicalRecord env p s = Ok r s') ↔
           (∃ s', accessMedicalRecord env p s = Ok r s')) ∧
     (∀ r s', getMedicalRecord env p s = Ok r s' → s' = s)) ∧
  (reachable ward ∧
   sender (mkEnv 3 20) ≠ 1 ∧
   checkAccess 1 (sender (mkEnv 3 20)) ward = Ok true ward ∧
   getMedicalRecord (mkEnv 3 20) 1 ward = Ok (record ward 1) ward ∧
   MedicalRecord.name (record ward 1) = "Jane Doe"%string ∧
   events (commit ward (getMedicalRecord (mkEnv 3 20) 1 ward)) = events ward ∧
   events (commit ward (accessMedicalRecord (mkEnv 3 20) 1 ward))
   = events ward ++ [RecordAccessed 1 3 20]).
Proof.
  split.
  - intros env p s. rewrite getMedicalRecord_eq, accessMedicalRecord_eq.
    destruct (authorized env p s); simpl.
    + destruct (MedicalRecord.exists_ (record s p)); simpl.
      * destruct (sender env =? p); (split; [done|]); split.
        -- done.
        -- by intros r s' [= _ <-].
        -- intros r. split; intros [s' [= <- ?]]; by eexists.
        -- by intros r s' [= _ <-].
      * split; [done|]. split; [|done]. intros r. by split; intros [s' [=]].
    + split; [done|]. split; [|done]. intros r. by split; intros [s' [=]].
  - split; [apply reachable_ward|]. by vm_compute.
Qed.

(** ** Granting *)

Lemma recordExists_true p s :
  recordExists p s = Ok true s ↔ MedicalRecord.exists_ (record s p) = true.
Proof.
  unfold recordExists, bind, get, ret.
  split; [by intros [= ->]|by intros ->].
Qed.

Lemma recordExists_false p s :
  recordExists p s = Ok false s ↔ MedicalRecord.exists_ (record s p) = false.
Proof.
  unfold recordExists, bind, get, ret.
  split; [by intros [= ->]|by intros ->].
Qed.

(** C3, as the specification words it, does not hold: address 1 has no
    record and grants access to itself ([D == P]); the call fails, but with
    [NotFound] and not with [InvalidDoctor]. *)
Lemma self_grant_without_record_is_not_found :
  reachable init ∧
  sender (mkEnv 1 1) = 1 ∧
  grantAccess (mkEnv 1 1) 1 init = Revert PatientRecordDoesNotExist init ∧
  failure (grantAccess (mkEnv 1 1) 1 init) = Some NotFound ∧
  failure (grantAccess (mkEnv 1 1) 1 init) ≠ Some InvalidDoctor.
Proof. split; [apply reachable_init|]. by vm_compute. Qed.

(** C3 (amended): in every state of the contract, a grant sent by a caller
    without a record fails with [NotFound], whoever the doctor is; a grant
    by a caller with a record fails with [InvalidDoctor] when the doctor is
    the caller; a grant fails with [AlreadyGranted] when the permission is
    granted already; when a grant succeeds the permission is granted with
    the current time as its timestamp, [checkAccess] is true and the doctor
    is in the list of the caller exactly once.  A caller with a record
    succeeds for every other doctor that is not the zero address and not
    granted yet. *)
Theorem grant_outcome env d s :
  reachable s →
  (recordExists (sender env) s = Ok false s →
     grantAccess env d s = Revert PatientRecordDoesNotExist s ∧
     failure (grantAccess env d s) = Some NotFound) ∧
  (recordExists (sender env) s = Ok true s → d = sender env →
     failure (grantAccess env d s) = Some InvalidDoctor ∧
     (d ≠ 0 → grantAccess env d s = Revert CannotGrantAccessToYourself s)) ∧
  (checkAccess (sender env) d s = Ok true s →
     grantAccess env d s = Revert AccessAlreadyGranted s ∧
     failure (grantAccess env d s) = Some AlreadyGranted) ∧
  (∀ s', grantAccess env d s = Ok tt s' →
     permission s' (sender env) d = AccessPermission.mk d true (now env) ∧
     checkAccess (sender env) d s' = Ok true s' ∧
     count_occ N.eq_dec (doctors s' (sender env)) d = 1%nat ∧
     getAuthorizedDoctors env (sender env) s' = Ok (doctors s' (sender env)) s') ∧
  (recordExists (sender env) s = Ok true s →
   d ≠ sender env → d ≠ 0 → checkAccess (sender env) d s = Ok false s →
     ∃ s', grantAccess env d s = Ok tt s').
Proof.
  intros Hs. pose proof (reachable_consistent s Hs) as Hc.
  split; [|split; [|split; [|split]]].
  - intros Hrec%recordExists_false. by rewrite grantAccess_eq, Hrec.
  - intros Hrec%recordExists_true ->.
    rewrite grantAccess_eq, Hrec, N.eqb_refl. simpl.
    destruct (N.eqb_spec (sender env) 0) as [E|E]; [done|]. by split.
  - intros Hg%checkAccess_true.
    pose proof (granted_record s Hc _ _ Hg) as Hrec.
    destruct (granted_other s Hc _ _ Hg) as [Hself Hzero].
    apply N.eqb_neq in Hself, Hzero.
    by rewrite grantAccess_eq, Hrec, Hself, Hzero, Hg.
  - intros s' (-> & _ & _ & _ & Hnot)%grantAccess_Ok.
    rewrite checkAccess_true, permission_accessGranted, doctors_accessGranted.
    rewrite !decide_True by done.
    split; [done|]. split; [done|]. split.
    + rewrite count_occ_app. simpl. destruct (N.eq_dec d d); [|done].
      rewrite (proj1 (count_occ_not_In N.eq_dec _ d)); [done|].
      rewrite <- list_elem_of_In, (doctors_granted s Hc). congruence.
    + by rewrite getAuthorizedDoctors_eq, N.eqb_refl, doctors_accessGranted,
        decide_True.
  - intros Hrec%recordExists_true Hself%N.eqb_neq Hzero%N.eqb_neq Hg%checkAccess_false.
    rewrite grantAccess_eq, Hrec, Hself, Hzero, Hg. by eexists.
Qed.

Lemma grant_outcome_witness :
  (recordExists (sender (mkEnv 1 14)) ward = Ok false ward →
     grantAccess (mkEnv 1 14) 5 ward = Revert PatientRecordDoesNotExist ward ∧
     failure (grantAccess (mkEnv 1 14) 5 ward) = Some NotFound) ∧
  (recordExists (sender (mkEnv 1 14)) ward = Ok true ward → 5 = sender (mkEnv 1 14) →
     failure (grantAccess (mkEnv 1 14) 5 ward) = Some InvalidDoctor ∧
     (5 ≠ 0 → grantAccess (mkEnv 1 14) 5 ward = Revert CannotGrantAccessToYourself ward)) ∧
  (checkAccess (sender (mkEnv 1 14)) 5 ward = Ok true ward →
     grantAccess (mkEnv 1 14) 5 ward = Revert AccessAlreadyGranted ward ∧
     failure (grantAccess (mkEnv 1 14) 5 ward) = Some AlreadyGranted) ∧
  (∀ s', grantAccess (mkEnv 1 14) 5 ward = Ok tt s' →
     permission s' (sender (mkEnv 1 14)) 5
     = AccessPermission.mk 5 true (now (mkEnv 1 14)) ∧
     checkAccess (sender (mkEnv 1 14)) 5 s' = Ok true s' ∧
     count_occ N.eq_dec (doctors s' (sender (mkEnv 1 14))) 5 = 1%nat ∧
     getAuthorizedDoctors (mkEnv 1 14) (sender (mkEnv 1 14)) s'
     = Ok (doctors s' (sender (mkEnv 1 14))) s') ∧
  (recordExists (sender (mkEnv 1 14)) ward = Ok true ward →
   5 ≠ sender (mkEnv 1 14) → 5 ≠ 0 →
   checkAccess (sender (mkEnv 1 14)) 5 ward = Ok false ward →
     ∃ s', grantAccess (mkEnv 1 14) 5 ward = Ok tt s').
Proof. apply (grant_outcome (mkEnv 1 14) 5 ward), reachable_ward. Defined.

(** The three failures and the success of the amended statement, on the
    history above. *)
Example grant_outcomes_on_ward :
  failure (grantAccess (mkEnv 7 14) 7 ward) = Some NotFound ∧
  failure (grantAccess (mkEnv 1 14) 1 ward) = Some InvalidDoctor ∧
  failure (grantAccess (mkEnv 1 14) 2 ward) = Some AlreadyGranted ∧
  failure (grantAccess (mkEnv 1 14) 5 ward) = None.
Proof. by vm_compute. Qed.

(** ** Revoking *)

(** C4, as the specification words it, does not hold: address 1 has no
    record, the permission map has no entry for the pair (1, 2), and the
    revoke fails, but with [NotFound] and not with [NotGranted]. *)
Lemma revoke_without_record_is_not_found :
  reachable init ∧
  (doctorAccess init !!! sender (mkEnv 1 1)) !! 2 = None ∧
  checkAccess 1 2 init = Ok false init ∧
  revokeAccess (mkEnv 1 1) 2 init = Revert PatientRecordDoesNotExist init ∧
  failure (revokeAccess (mkEnv 1 1) 2 init) = Some NotFound ∧
  failure (revokeAccess (mkEnv 1 1) 2 init) ≠ Some NotGranted.
Proof. split; [apply reachable_init|]. by vm_compute. Qed.

(** C4 (amended): in every state of the contract, a revoke fails with
    [NotFound] exactly when the caller has no record; it fails with
    [NotGranted] exactly when the caller has a record and the permission map
    has no entry for the pair or the entry is not granted; it succeeds
    exactly when [checkAccess] is true for the pair; after it has succeeded
    [checkAccess] is false and the doctor is not in the list of the
    caller. *)
Theorem revoke_outcome env d s :
  reachable s →
  (failure (revokeAccess env d s) = Some NotFound ↔
     recordExists (sender env) s = Ok false s) ∧
  (failure (revokeAccess env d s) = Some NotGranted ↔
     recordExists (sender env) s = Ok true s ∧
     ((doctorAccess s !!! sender env) !! d = None ∨
      AccessPermission.granted (permission s (sender env) d) = false)) ∧
  ((∃ s', revokeAccess env d s = Ok tt s') ↔
     checkAccess (sender env) d s = Ok true s) ∧
  (∀ s', revokeAccess env d s = Ok tt s' →
     checkAccess (sender env) d s' = Ok false s' ∧
     (d ∉ doctors s' (sender env)) ∧
     getAuthorizedDoctors env (sender env) s' = Ok (doctors s' (sender env)) s').
Proof.
  intros Hs. pose proof (reachable_consistent s Hs) as Hc.
  assert (Habsent : (doctorAccess s !!! sender env) !! d = None →
                    AccessPermission.granted (permission s (sender env) d) = false).
  { intros Hn. unfold permission. by rewrite lookup_total_alt, Hn. }
  rewrite recordExists_false, recordExists_true, checkAccess_true.
  split; [|split; [|split]].
  - rewrite revokeAccess_eq.
    destruct (MedicalRecord.exists_ (record s (sender env))) eqn:Hrec; simpl; [|done].
    by destruct (AccessPermission.granted (permission s (sender env) d)).
  - rewrite revokeAccess_eq.
    destruct (MedicalRecord.exists_ (record s (sender env))) eqn:Hrec; simpl.
    + destruct (AccessPermission.granted (permission s (sender env) d)) eqn:Hg; simpl.
      * split; [done|]. intros [_ [Hn|?]]; [|done]. apply Habsent in Hn. congruence.
      * split; [|done]. intros _. split; [done|by right].
    + split; [done|]. by intros [? _].
  - rewrite revokeAccess_eq.
    destruct (AccessPermission.granted (permission s (sender env) d)) eqn:Hg.
    + rewrite (granted_record s Hc _ _ Hg). simpl. split; [done|]. by eexists.
    + split; [|done].
      destruct (MedicalRecord.exists_ (record s (sender env))); simpl;
        by intros [? [=]].
  - intros s' (-> & _ & Hg)%revokeAccess_Ok.
    rewrite checkAccess_false, permission_accessRevoked, decide_True by done.
    split; [done|]. split.
    + rewrite doctors_accessRevoked, decide_True by done.
      rewrite removeDoctor_elem by apply Hc. by intros [_ ?].
    + by rewrite getAuthorizedDoctors_eq, N.eqb_refl.
Qed.

Lemma revoke_outcome_witness :
  (failure (revokeAccess (mkEnv 1 14) 2 ward) = Some NotFound ↔
     recordExists (sender (mkEnv 1 14)) ward = Ok false ward) ∧
  (failure (revokeAccess (mkEnv 1 14) 2 ward) = Some NotGranted ↔
     recordExists (sender (mkEnv 1 14)) ward = Ok true ward ∧
     ((doctorAccess ward !!! sender (mkEnv 1 14)) !! 2 = None ∨
      AccessPermission.granted (permission ward (sender (mkEnv 1 14)) 2) = false)) ∧
  ((∃ s', revokeAccess (mkEnv 1 14) 2 ward = Ok tt s') ↔
     checkAccess (sender (mkEnv 1 14)) 2 ward = Ok true ward) ∧
  (∀ s', revokeAccess (mkEnv 1 14) 2 ward = Ok tt s' →
     checkAccess (sender (mkEnv 1 14)) 2 s' = Ok false s' ∧
     (2 ∉ doctors s' (sender (mkEnv 1 14))) ∧
     getAuthorizedDoctors (mkEnv 1 14) (sender (mkEnv 1 14)) s'
     = Ok (doctors s' (sender (mkEnv 1 14))) s').
Proof. apply (revoke_outcome (mkEnv 1 14) 2 ward), reachable_ward. Defined.

(** The two failures and the success of the amended statement, on the
    history above: doctor 5 was never granted, doctor 2 is. *)
Example revoke_outcomes_on_ward :
  failure (revokeAccess (mkEnv 7 14) 2 ward) = Some NotFound ∧
  failure (revokeAccess (mkEnv 1 14) 5 ward) = Some NotGranted ∧
  failure (revokeAccess (mkEnv 1 14) 2 ward) = None ∧
  failure (revokeAccess (mkEnv 1 15) 2 ward_revoked) = Some NotGranted.
Proof. by vm_compute. Qed.

(** ** Adding or updating a record *)

Lemma age_in_range (a : uint256) :
  (0 <? a) && (a <? 150) = true ↔ 1 ≤ a ≤ 149.
Proof. rewrite andb_true_iff, N.ltb_lt, N.ltb_lt. lia. Qed.

Lemma eqb_empty (n : string) : String.eqb n EmptyString = true ↔ n = EmptyString.
Proof. apply String.eqb_eq. Qed.

(** C6: [addMedicalRecord] fails, with [ValidationError], exactly when the
    name is empty, the medical history is empty or the age is not between 1
    and 149; with any other input it succeeds and the record of the caller
    is the one made of the given fields, written over the slot of the caller
    in the map of records, with the records of all other patients, the
    permissions and the lists of doctors as they were. *)
Theorem addMedicalRecord_outcome env n a h i s :
  ((n = EmptyString ∨ h = EmptyString ∨ ¬ (1 ≤ a ≤ 149)) ∧
   failure (addMedicalRecord env n a h i s) = Some ValidationError ∧
   ∃ e, addMedicalRecord env n a h i s = Revert e s)
  ∨
  ((n ≠ EmptyString ∧ h ≠ EmptyString ∧ 1 ≤ a ≤ 149) ∧
   ∃ s', addMedicalRecord env n a h i s = Ok tt s' ∧
     record s' (sender env) = MedicalRecord.mk n a h i (now env) true ∧
     patientRecords s'
     = <[sender env := MedicalRecord.mk n a h i (now env) true]> (patientRecords s) ∧
     (∀ p, p ≠ sender env → record s' p = record s p) ∧
     doctorAccess s' = doctorAccess s ∧
     patientDoctors s' = patientDoctors s).
Proof.
  rewrite addMedicalRecord_eq.
  destruct (String.eqb n EmptyString) eqn:Hn.
  { apply eqb_empty in Hn. left. split; [by left|]. split; [done|]. by eexists. }
  destruct ((0 <? a) && (a <? 150)) eqn:Ha; simpl; cycle 1.
  { left. split; [|split; [done|by eexists]].
    right; right. intros Hr%age_in_range. congruence. }
  destruct (String.eqb h EmptyString) eqn:Hh.
  { apply eqb_empty in Hh. left. split; [by right; left|]. split; [done|]. by eexists. }
  right. split.
  - split; [|split].
    + intros E%eqb_empty. congruence.
    + intros E%eqb_empty. congruence.
    + by apply age_in_range.
  - eexists. split; [done|]. rewrite record_recordAdded, decide_True by done.
    split; [done|]. split; [done|]. split; [|done].
    intros p Hp. rewrite record_recordAdded. by rewrite decide_False.
Qed.

(** ** The event log *)

(** The event a successful writing call emits. *)
Lemma call_Ok_events env c s v s' :
  call env c s = Ok v s' →
  if mutating env c
  then ∃ e, events s' = events s ++ [e] ∧
            match c with
            | AddMedicalRecord n a _ _ => e = MedicalRecordAdded (sender env) n a (now env)
            | GrantAccess d => e = AccessGranted (sender env) d (now env)
            | RevokeAccess d => e = AccessRevoked (sender env) d (now env)
            | AccessMedicalRecord p => e = RecordAccessed p (sender env) (now env)
            | _ => False
            end
  else s' = s.
Proof.
  unfold call, returning, bind.
  destruct c as [n a h i|d|d|p|p|p d|p| |p]; simpl.
  - rewrite addMedicalRecord_eq. repeat branch. intros [= _ <-]. by eexists.
  - rewrite grantAccess_eq. repeat branch. intros [= _ <-]. by eexists.
  - rewrite revokeAccess_eq. repeat branch. intros [= _ <-]. by eexists.
  - rewrite getMedicalRecord_eq. repeat branch. by intros [= _ <-].
  - rewrite accessMedicalRecord_eq. repeat branch.
    + by intros [= _ <-].
    + intros [= _ <-]. by eexists.
  - by intros [= _ <-].
  - rewrite getAuthorizedDoctors_eq. repeat branch. by intros [= _ <-].
  - rewrite getMyRecord_eq. repeat branch. by intros [= _ <-].
  - by intros [= _ <-].
Qed.

Lemma call_Revert_state env c s e s' : call env c s = Revert e s' → s' = s.
Proof.
  unfold call, returning, bind.
  destruct c as [n a h i|d|d|p|p|p d|p| |p]; simpl.
  - rewrite addMedicalRecord_eq. repeat branch; by intros [= _ <-].
  - rewrite grantAccess_eq. repeat branch; by intros [= _ <-].
  - rewrite revokeAccess_eq. repeat branch; by intros [= _ <-].
  - rewrite getMedicalRecord_eq. repeat branch; by intros [= _ <-].
  - rewrite accessMedicalRecord_eq. repeat branch; by intros [= _ <-].
  - done.
  - rewrite getAuthorizedDoctors_eq. repeat branch; by intros [= _ <-].
  - rewrite getMyRecord_eq. repeat branch; by intros [= _ <-].
  - done.
Qed.

(** C7: a successful writing call ([addMedicalRecord], [grantAccess],
    [revokeAccess], or [accessMedicalRecord] by somebody other than the
    patient) appends exactly one event to the log, the one of its kind; the
    event gets the next sequence number, every event logged before keeps its
    number, and that number is smaller; the first number is 1. *)
Theorem writing_call_appends_one_event env c s v s' :
  call env c s = Ok v s' →
  mutating env c = true →
  (∃ e, events s' = events s ++ [e] ∧
        match c with
        | AddMedicalRecord n a _ _ => e = MedicalRecordAdded (sender env) n a (now env)
        | GrantAccess d => e = AccessGranted (sender env) d (now env)
        | RevokeAccess d => e = AccessRevoked (sender env) d (now env)
        | AccessMedicalRecord p => e = RecordAccessed p (sender env) (now env)
        | _ => False
        end ∧
        hasSequence s' e (nextSequence s) ∧
        (∀ n, hasSequence s' e n → n = nextSequence s ∨ hasSequence s e n)) ∧
  (∀ e0 n, hasSequence s e0 n → hasSequence s' e0 n ∧ (n < nextSequence s)%nat) ∧
  nextSequence s' = S (nextSequence s) ∧
  nextSequence init = 1%nat.
Proof.
  intros Hcall Hmut. apply call_Ok_events in Hcall. rewrite Hmut in Hcall.
  destruct Hcall as (e & Hev & Hkind).
  unfold nextSequence, hasSequence, sequenceAt. rewrite Hev.
  split; [|split; [|split]].
  - exists e. split; [done|]. split; [done|]. split.
    + exists (length (events s)). split; [|done]. by apply list_lookup_middle.
    + intros n (i & Hi & ->).
      destruct (decide (i < length (events s))%nat) as [Hlt|Hge].
      * right. exists i. split; [|done]. by rewrite lookup_app_l in Hi.
      * left. apply lookup_lt_Some in Hi. rewrite length_app in Hi. simpl in Hi. lia.
  - intros e0 n (i & Hi & ->). pose proof (lookup_lt_Some _ _ _ Hi) as Hlt.
    split; [|lia]. exists i. split; [|done]. by rewrite lookup_app_l.
  - rewrite length_app. simpl. lia.
  - done.
Qed.

Lemma writing_call_appends_one_event_witness :
  (∃ e, events ward_revoked = events ward ++ [e] ∧
        e = AccessRevoked (sender (mkEnv 1 14)) 2 (now (mkEnv 1 14)) ∧
        hasSequence ward_revoked e (nextSequence ward) ∧
        (∀ n, hasSequence ward_revoked e n →
              n = nextSequence ward ∨ hasSequence ward e n)) ∧
  (∀ e0 n, hasSequence ward e0 n →
           hasSequence ward_revoked e0 n ∧ (n < nextSequence ward)%nat) ∧
  nextSequence ward_revoked = S (nextSequence ward) ∧
  nextSequence init = 1%nat.
Proof.
  apply (writing_call_appends_one_event (mkEnv 1 14) (RevokeAccess 2) ward VUnit
           ward_revoked).
  - vm_compute. reflexivity.
  - reflexivity.
Defined.

(** ** The list and the permission map *)

(** C8, as the specification words it, does not hold: the list is not
    fully derivable from the permission map.  The two histories above reach
    states with the same permission map and the same records, and the list
    of patient 1 is [4; 3] in one and [3; 4] in the other. *)
Lemma equal_permissions_different_lists :
  reachable ward_revoked ∧
  reachable ward_early_revoke ∧
  doctorAccess ward_revoked = doctorAccess ward_early_revoke ∧
  patientRecords ward_revoked = patientRecords ward_early_revoke ∧
  doctors ward_revoked 1 = [4; 3] ∧
  doctors ward_early_revoke 1 = [3; 4] ∧
  doctors ward_revoked 1 ≠ doctors ward_early_revoke 1.
Proof.
  split; [apply reachable_ward_revoked|].
  split; [apply reachable_run, reachable_init|]. by vm_compute.
Qed.

(** C8 (amended): in every state of the contract a doctor is in the list of
    a patient exactly when the permission of the pair is granted, and is
    there once; the contents of the list are therefore determined by the
    permission map, and the list itself up to the order of its entries: any
    list without duplicates of the granted doctors is a permutation of it.
    The order is not determined by the map. *)
Theorem doctors_list_follows_permissions s p :
  reachable s →
  (∀ d, d ∈ doctors s p ↔ AccessPermission.granted (permission s p d) = true) ∧
  (∀ d, d ∈ doctors s p ↔ checkAccess p d s = Ok true s) ∧
  NoDup (doctors s p) ∧
  (∀ l : list address,
     NoDup l →
     (∀ d, d ∈ l ↔ AccessPermission.granted (permission s p d) = true) →
     doctors s p ≡ₚ l).
Proof.
  intros Hc%reachable_consistent.
  split; [apply Hc|]. split; [intros d; rewrite checkAccess_true; apply Hc|].
  split; [apply Hc|].
  intros l Hnd Hl. apply NoDup_Permutation; [apply Hc|done|].
  intros d. by rewrite Hl, (doctors_granted s Hc).
Qed.

Lemma doctors_list_follows_permissions_witness :
  (∀ d, d ∈ doctors ward_revoked 1 ↔
        AccessPermission.granted (permission ward_revoked 1 d) = true) ∧
  (∀ d, d ∈ doctors ward_revoked 1 ↔ checkAccess 1 d ward_revoked = Ok true ward_revoked) ∧
  NoDup (doctors ward_revoked 1) ∧
  (∀ l : list address,
     NoDup l →
     (∀ d, d ∈ l ↔ AccessPermission.granted (permission ward_revoked 1 d) = true) →
     doctors ward_revoked 1 ≡ₚ l).
Proof.
  apply (doctors_list_follows_permissions ward_revoked 1), reachable_ward_revoked.
Defined.

(** ** Failures *)

(** C9: a call either fails whole or commits whole.  A call that fails has
    written nothing when it fails, whatever the error, and the chain keeps
    the state from before the call: the records, the permissions, the lists
    of doctors and the event log are the same.  A call that succeeds has
    made every write of its function together with its event:
    [addMedicalRecord] has stored the record of the caller and logged
    [MedicalRecordAdded]; [grantAccess] has stored the granted permission,
    appended the doctor to the list of the caller and logged
    [AccessGranted]; [revokeAccess] has cleared the granted flag, removed
    the doctor from the list and logged [AccessRevoked];
    [accessMedicalRecord] has logged [RecordAccessed] when the caller is not
    the patient; and nothing else is changed.  The other functions, and a
    read by the patient, leave the state as it was. *)
Theorem call_commits_whole_or_fails_whole env c s :
  match call env c s with
  | Revert e s' =>
      s' = s ∧ step env c s = s ∧
      patientRecords (step env c s) = patientRecords s ∧
      doctorAccess (step env c s) = doctorAccess s ∧
      patientDoctors (step env c s) = patientDoctors s ∧
      events (step env c s) = events s
  | Ok v s' =>
      step env c s = s' ∧
      match c with
      | AddMedicalRecord n a h i =>
          s' = recordAdded env n a h i s ∧
          record s' (sender env) = MedicalRecord.mk n a h i (now env) true ∧
          (∀ q, q ≠ sender env → record s' q = record s q) ∧
          doctorAccess s' = doctorAccess s ∧
          patientDoctors s' = patientDoctors s ∧
          events s' = events s ++ [MedicalRecordAdded (sender env) n a (now env)]
      | GrantAccess d =>
          s' = accessGranted env d s ∧
          permission s' (sender env) d = AccessPermission.mk d true (now env) ∧
          (∀ q x, (q, x) ≠ (sender env, d) → permission s' q x = permission s q x) ∧
          doctors s' (sender env) = doctors s (sender env) ++ [d] ∧
          (∀ q, q ≠ sender env → doctors s' q = doctors s q) ∧
          patientRecords s' = patientRecords s ∧
          events s' = events s ++ [AccessGranted (sender env) d (now env)]
      | RevokeAccess d =>
          s' = accessRevoked env d s ∧
          AccessPermission.granted (permission s (sender env) d) = true ∧
          permission s' (sender env) d
          = AccessPermission.mk
              (AccessPermission.doctor (permission s (sender env) d)) false
              (AccessPermission.timestamp (permission s (sender env) d)) ∧
          (∀ q x, (q, x) ≠ (sender env, d) → permission s' q x = permission s q x) ∧
          doctors s' (sender env) = removeDoctor d (doctors s (sender env)) ∧
          (∀ q, q ≠ sender env → doctors s' q = doctors s q) ∧
          patientRecords s' = patientRecords s ∧
          events s' = events s ++ [AccessRevoked (sender env) d (now env)]
      | AccessMedicalRecord p =>
          patientRecords s' = patientRecords s ∧
          doctorAccess s' = doctorAccess s ∧
          patientDoctors s' = patientDoctors s ∧
          events s' = if sender env =? p
                      then events s
                      else events s ++ [RecordAccessed p (sender env) (now env)]
      | _ => s' = s
      end
  end.
Proof.
  unfold step. destruct (call env c s) as [v s'|e s'] eqn:Hcall; simpl;
    [|by apply call_Revert_state in Hcall].
  split; [done|]. revert Hcall. unfold call, returning, bind.
  destruct c as [n a h i|d|d|p|p|p d|p| |p]; simpl.
  - rewrite addMedicalRecord_eq. repeat branch. intros [= _ <-].
    split; [done|]. rewrite record_recordAdded, decide_True by done.
    split; [done|]. split; [|done].
    intros q Hq. rewrite record_recordAdded. by rewrite decide_False.
  - destruct (grantAccess env d s) as [[] s1|] eqn:Hg; [|done].
    simpl. intros [= _ <-]. apply grantAccess_Ok in Hg as (-> & _).
    split; [done|]. rewrite permission_accessGranted, decide_True by done.
    split; [done|]. split.
    { intros q x Hne. rewrite permission_accessGranted.
      rewrite decide_False; [done|]. intros [-> ->]. by apply Hne. }
    rewrite doctors_accessGranted, decide_True by done.
    split; [done|]. split; [|done].
    intros q Hq. rewrite doctors_accessGranted. by rewrite decide_False.
  - destruct (revokeAccess env d s) as [[] s1|] eqn:Hr; [|done].
    simpl. intros [= _ <-]. apply revokeAccess_Ok in Hr as (-> & _ & Hg).
    split; [done|]. split; [done|].
    rewrite permission_accessRevoked, decide_True by done.
    split; [done|]. split.
    { intros q x Hne. rewrite permission_accessRevoked.
      rewrite decide_False; [done|]. intros [-> ->]. by apply Hne. }
    rewrite doctors_accessRevoked, decide_True by done.
    split; [done|]. split; [|done].
    intros q Hq. rewrite doctors_accessRevoked. by rewrite decide_False.
  - rewrite getMedicalRecord_eq. repeat branch. by intros [= _ <-].
  - rewrite accessMedicalRecord_eq. repeat branch; by intros [= _ <-].
  - by intros [= _ <-].
  - rewrite getAuthorizedDoctors_eq. repeat branch. by intros [= _ <-].
  - rewrite getMyRecord_eq. repeat branch. by intros [= _ <-].
  - by intros [= _ <-].
Qed.

(** A second grant of the same doctor fails and leaves the state alone. *)
Example second_grant_fails :
  call (mkEnv 1 14) (GrantAccess 2) ward = Revert AccessAlreadyGranted ward ∧
  step (mkEnv 1 14) (GrantAccess 2) ward = ward.
Proof. by vm_compute. Qed.

(** * Further properties of the contract *)

(** ** The shape of a transaction *)

Lemma step_outcome env c s : outcome env s c (step env c s).
Proof.
  unfold step, call, returning, bind.
  destruct c as [n a h i|d|d|p|p|p d|p| |p]; simpl;
    try apply outcome_unchanged.
  - rewrite addMedicalRecord_eq.
    destruct (String.eqb n EmptyString) eqn:Hn; [apply outcome_unchanged|].
    destruct ((0 <? a) && (a <? 150)) eqn:Ha; simpl; [|apply outcome_unchanged].
    destruct (String.eqb h EmptyString) eqn:Hh; [apply outcome_unchanged|].
    simpl. apply outcome_added.
    + intros E%eqb_empty. congruence.
    + by apply age_in_range.
    + intros E%eqb_empty. congruence.
  - destruct (grantAccess env d s) as [[] s'|e s'] eqn:Hg; simpl;
      [|apply outcome_unchanged].
    apply grantAccess_Ok in Hg as (-> & ? & ? & ? & ?). by apply outcome_granted.
  - destruct (revokeAccess env d s) as [[] s'|e s'] eqn:Hr; simpl;
      [|apply outcome_unchanged].
    apply revokeAccess_Ok in Hr as (-> & ? & ?). by apply outcome_revoked.
  - rewrite getMedicalRecord_eq. repeat branch; apply outcome_unchanged.
  - rewrite accessMedicalRecord_eq.
    destruct (authorized env p s) eqn:Ha; simpl; [|apply outcome_unchanged].
    destruct (MedicalRecord.exists_ (record s p)) eqn:He; simpl;
      [|apply outcome_unchanged].
    destruct (N.eqb_spec (sender env) p) as [?|Hne]; simpl;
      [apply outcome_unchanged|].
    by apply outcome_accessed.
  - rewrite getAuthorizedDoctors_eq. repeat branch; apply outcome_unchanged.
  - rewrite getMyRecord_eq. repeat branch; apply outcome_unchanged.
Qed.

(** ** Stored records *)

Lemma recordsValid_init : recordsValid init.
Proof. intros p. right. unfold record. simpl. by rewrite lookup_total_empty. Qed.

Lemma recordsValid_step env c s : recordsValid s → recordsValid (step env c s).
Proof.
  intros Hs. destruct (step_outcome env c s) as [c|n a h i Hn Ha Hh| | | ]; try done.
  intros p. rewrite record_recordAdded. case_decide; [|apply Hs].
  left. unfold wellFormed. simpl. destruct Ha. by repeat split.
Qed.

Lemma reachable_recordsValid s : reachable s → recordsValid s.
Proof.
  induction 1 as [|env c s _ IH]; [apply recordsValid_init|].
  by apply recordsValid_step.
Qed.

(** X1: in every state of the contract the record slot of a patient either
    was never written, and reads as the zero record, or holds a record with
    its [exists] flag set, a name and a medical history that are not empty
    and an age between 1 and 149. *)
Theorem stored_records_are_well_formed s p :
  reachable s →
  (recordExists p s = Ok true s ∧ wellFormed (record s p)) ∨
  (recordExists p s = Ok false s ∧ record s p = MedicalRecord.zero).
Proof.
  intros Hs. destruct (reachable_recordsValid s Hs p) as [Hw|Hz].
  - left. split; [|done]. apply recordExists_true, Hw.
  - right. split; [|done]. unfold recordExists, bind, get, ret. by rewrite Hz.
Qed.

Lemma stored_records_are_well_formed_witness :
  (recordExists 1 ward = Ok true ward ∧ wellFormed (record ward 1)) ∨
  (recordExists 1 ward = Ok false ward ∧ record ward 1 = MedicalRecord.zero).
Proof. apply (stored_records_are_well_formed ward 1), reachable_ward. Defined.

Lemma exists_step env c s p :
  MedicalRecord.exists_ (record s p) = true →
  MedicalRecord.exists_ (record (step env c s) p) = true.
Proof.
  intros He. destruct (step_outcome env c s); try done.
  rewrite record_recordAdded. by case_decide.
Qed.

(** X2: a record is never deleted: once [recordExists] is true for a patient
    it is true after every further sequence of transactions; and the only
    transaction that makes it true is [addMedicalRecord] sent by the patient. *)
Theorem record_persists env c s p :
  (recordExists p s = Ok true s →
   ∀ txs, recordExists p (run txs s) = Ok true (run txs s)) ∧
  (recordExists p s = Ok false s →
   recordExists p (step env c s) = Ok true (step env c s) →
   sender env = p ∧ ∃ n a h i, c = AddMedicalRecord n a h i).
Proof.
  split.
  - intros He txs. revert s He.
    induction txs as [|[env' c'] txs IH]; intros s He; [done|].
    apply IH. apply recordExists_true. by apply exists_step, recordExists_true.
  - unfold recordExists, bind, get, ret. intros [= Hf] [= Ht].
    destruct (step_outcome env c s) as [c|n a h i _ _ _|d _ _ _ _|d _ _|p' _ _ _].
    + congruence.
    + rewrite record_recordAdded in Ht. case_decide; [|congruence].
      split; [done|]. by exists n, a, h, i.
    + change (record (accessGranted env d s) p) with (record s p) in Ht. congruence.
    + change (record (accessRevoked env d s) p) with (record s p) in Ht. congruence.
    + change (record (recordAccessed env p' s) p) with (record s p) in Ht. congruence.
Qed.

(** ** Isolation *)

Lemma step_isolated env c s q : q ≠ sender env → sameData q (step env c s) s.
Proof.
  intros Hq. destruct (step_outcome env c s); try done.
  - split; [|done]. rewrite record_recordAdded. by rewrite decide_False.
  - split; [done|]. split.
    + intros d'. rewrite permission_accessGranted.
      by rewrite decide_False by (by intros [? _]).
    + rewrite doctors_accessGranted. by rewrite decide_False.
  - split; [done|]. split.
    + intros d'. rewrite permission_accessRevoked.
      by rewrite decide_False by (by intros [? _]).
    + rewrite doctors_accessRevoked. by rewrite decide_False.
Qed.

(** X3: a transaction touches only the data of its sender: the record, the
    permissions and the list of doctors of every other patient are after the
    transaction what they were before, whatever the call and whether or not
    it succeeds. *)
Theorem caller_writes_only_own_data env c s q :
  q ≠ sender env →
  record (step env c s) q = record s q ∧
  (∀ d, permission (step env c s) q d = permission s q d) ∧
  (∀ d, checkAccess q d (step env c s)
        = Ok (AccessPermission.granted (permission s q d)) (step env c s)) ∧
  doctors (step env c s) q = doctors s q.
Proof.
  intros Hq. destruct (step_isolated env c s q Hq) as (Hr & Hp & Hd).
  split; [done|]. split; [done|]. split; [|done].
  intros d. by rewrite checkAccess_eq, Hp.
Qed.

Lemma caller_writes_only_own_data_witness :
  record (step (mkEnv 9 30) (AddMedicalRecord "Eve" 30 "None" EmptyString) ward) 1
  = record ward 1 ∧
  (∀ d, permission (step (mkEnv 9 30) (AddMedicalRecord "Eve" 30 "None" EmptyString) ward) 1 d
        = permission ward 1 d) ∧
  (∀ d, checkAccess 1 d (step (mkEnv 9 30) (AddMedicalRecord "Eve" 30 "None" EmptyString) ward)
        = Ok (AccessPermission.granted (permission ward 1 d))
             (step (mkEnv 9 30) (AddMedicalRecord "Eve" 30 "None" EmptyString) ward)) ∧
  doctors (step (mkEnv 9 30) (AddMedicalRecord "Eve" 30 "None" EmptyString) ward) 1
  = doctors ward 1.
Proof.
  apply (caller_writes_only_own_data (mkEnv 9 30)
           (AddMedicalRecord "Eve" 30 "None" EmptyString) ward 1).
  discriminate.
Defined.

(** ** Granting and revoking in sequence *)

Lemma removeDoctor_snoc d (l : list address) : d ∉ l → removeDoctor d (l ++ [d]) = l.
Proof. intros Hd. by rewrite (removeDoctor_found d l [] Hd). Qed.

(** X4: a grant followed by a revoke of the same doctor by the same patient
    always succeeds and puts the list of doctors back exactly as it was,
    order included; the granted flags and the records are as before, the
    permission entry keeps the time of the grant, and the log has grown by
    the two events. *)
Theorem grant_then_revoke_restores_list env env' d s s1 :
  reachable s →
  grantAccess env d s = Ok tt s1 →
  sender env' = sender env →
  ∃ s2, revokeAccess env' d s1 = Ok tt s2 ∧
    (∀ q, doctors s2 q = doctors s q) ∧
    (∀ q x, checkAccess q x s2
            = Ok (AccessPermission.granted (permission s q x)) s2) ∧
    permission s2 (sender env) d = AccessPermission.mk d false (now env) ∧
    patientRecords s2 = patientRecords s ∧
    events s2 = events s ++ [AccessGranted (sender env) d (now env);
                             AccessRevoked (sender env) d (now env')].
Proof.
  intros Hs Hg Hsender. pose proof (reachable_consistent s Hs) as Hc.
  apply grantAccess_Ok in Hg as (-> & Hrec & Hzero & Hself & Hnot).
  exists (accessRevoked env' d (accessGranted env d s)).
  assert (Hperm : permission (accessGranted env d s) (sender env') d
                  = AccessPermission.mk d true (now env)).
  { rewrite permission_accessGranted, Hsender. by rewrite decide_True. }
  split; [|split; [|split; [|split; [|split]]]].
  - rewrite revokeAccess_eq, Hperm, Hsender. simpl.
    change (record (accessGranted env d s) (sender env)) with (record s (sender env)).
    by rewrite Hrec.
  - intros q. rewrite doctors_accessRevoked, doctors_accessGranted, Hsender.
    case_decide as Hq; [|done]. apply removeDoctor_snoc.
    rewrite Hq, (doctors_granted s Hc). congruence.
  - intros q x. rewrite checkAccess_eq. f_equal.
    rewrite permission_accessRevoked, Hsender.
    destruct (decide (q = sender env ∧ x = d)) as [[-> ->]|Hk].
    + simpl. by rewrite Hnot.
    + rewrite permission_accessGranted. by rewrite decide_False.
  - rewrite permission_accessRevoked, Hperm, Hsender. by rewrite decide_True.
  - done.
  - simpl. by rewrite <- app_assoc, Hsender.
Qed.

Lemma grant_then_revoke_restores_list_witness :
  ∃ s2, revokeAccess (mkEnv 1 15) 5 (step (mkEnv 1 14) (GrantAccess 5) ward) = Ok tt s2 ∧
    (∀ q, doctors s2 q = doctors ward q) ∧
    (∀ q x, checkAccess q x s2
            = Ok (AccessPermission.granted (permission ward q x)) s2) ∧
    permission s2 (sender (mkEnv 1 14)) 5
    = AccessPermission.mk 5 false (now (mkEnv 1 14)) ∧
    patientRecords s2 = patientRecords ward ∧
    events s2 = events ward ++ [AccessGranted (sender (mkEnv 1 14)) 5 (now (mkEnv 1 14));
                                AccessRevoked (sender (mkEnv 1 14)) 5 (now (mkEnv 1 15))].
Proof.
  apply (grant_then_revoke_restores_list (mkEnv 1 14) (mkEnv 1 15) 5 ward).
  - apply reachable_ward.
  - vm_compute. reflexivity.
  - reflexivity.
Defined.

(** X5: after a successful revoke the patient can grant the same doctor
    again (the pair can go round for ever); the doctor then stands at the end
    of the list, which holds the same doctors as before the revoke, and the
    permission carries the time of the new grant. *)
Theorem revoke_then_grant_moves_to_end env env' d s s1 :
  reachable s →
  revokeAccess env d s = Ok tt s1 →
  sender env' = sender env →
  ∃ s2, grantAccess env' d s1 = Ok tt s2 ∧
    doctors s2 (sender env) = removeDoctor d (doctors s (sender env)) ++ [d] ∧
    doctors s2 (sender env) ≡ₚ doctors s (sender env) ∧
    checkAccess (sender env) d s2 = Ok true s2 ∧
    permission s2 (sender env) d = AccessPermission.mk d true (now env').
Proof.
  intros Hs Hr Hsender. pose proof (reachable_consistent s Hs) as Hc.
  apply revokeAccess_Ok in Hr as (-> & Hrec & Hg).
  destruct (granted_other s Hc _ _ Hg) as [Hself Hzero].
  exists (accessGranted env' d (accessRevoked env d s)).
  assert (Hperm : AccessPermission.granted
                    (permission (accessRevoked env d s) (sender env') d) = false).
  { rewrite permission_accessRevoked, Hsender. by rewrite decide_True. }
  assert (Hlist : doctors (accessGranted env' d (accessRevoked env d s)) (sender env)
                  = removeDoctor d (doctors s (sender env)) ++ [d]).
  { rewrite doctors_accessGranted, doctors_accessRevoked, Hsender.
    by rewrite !decide_True. }
  split; [|split; [|split; [|split]]].
  - rewrite grantAccess_eq, Hperm, Hsender.
    change (record (accessRevoked env d s) (sender env)) with (record s (sender env)).
    rewrite Hrec. simpl.
    apply N.eqb_neq in Hself, Hzero. by rewrite Hzero, Hself.
  - done.
  - rewrite Hlist, <- Permutation_cons_append.
    apply removeDoctor_perm. by apply (doctors_granted s Hc).
  - rewrite checkAccess_true, permission_accessGranted, Hsender.
    by rewrite decide_True.
  - rewrite permission_accessGranted, Hsender. by rewrite decide_True.
Qed.

Lemma revoke_then_grant_moves_to_end_witness :
  ∃ s2, grantAccess (mkEnv 1 15) 2 ward_revoked = Ok tt s2 ∧
    doctors s2 (sender (mkEnv 1 14))
    = removeDoctor 2 (doctors ward (sender (mkEnv 1 14))) ++ [2] ∧
    doctors s2 (sender (mkEnv 1 14)) ≡ₚ doctors ward (sender (mkEnv 1 14)) ∧
    checkAccess (sender (mkEnv 1 14)) 2 s2 = Ok true s2 ∧
    permission s2 (sender (mkEnv 1 14)) 2 = AccessPermission.mk 2 true (now (mkEnv 1 15)).
Proof.
  apply (revoke_then_grant_moves_to_end (mkEnv 1 14) (mkEnv 1 15) 2 ward ward_revoked).
  - apply reachable_ward.
  - vm_compute. reflexivity.
  - reflexivity.
Defined.

(** ** Who can hold a permission, and what it gives *)

(** X6: in no state of the contract is the zero address granted access, and
    nobody is granted access to the own record. *)
Theorem zero_and_self_never_granted s p :
  reachable s →
  checkAccess p 0 s = Ok false s ∧ checkAccess p p s = Ok false s.
Proof.
  intros Hc%reachable_consistent. rewrite !checkAccess_false.
  split.
  - destruct (AccessPermission.granted (permission s p 0)) eqn:Hg; [|done].
    by destruct (granted_other s Hc _ _ Hg) as [_ ?].
  - destruct (AccessPermission.granted (permission s p p)) eqn:Hg; [|done].
    by destruct (granted_other s Hc _ _ Hg) as [? _].
Qed.

Lemma zero_and_self_never_granted_witness :
  checkAccess 1 0 ward = Ok false ward ∧ checkAccess 1 1 ward = Ok false ward.
Proof. apply (zero_and_self_never_granted ward 1), reachable_ward. Defined.

Lemma authorized_granted d t p s :
  consistent s → AccessPermission.granted (permission s p d) = true →
  authorized (mkEnv d t) p s = true ∧ (d =? p) = false.
Proof.
  intros Hc Hg. destruct (granted_other s Hc _ _ Hg) as [Hne _].
  unfold authorized. simpl. rewrite Hg, (granted_doctor s Hc _ _ Hg), N.eqb_refl.
  split; [by rewrite orb_true_r|]. by apply N.eqb_neq.
Qed.

(** X7: a doctor for whom [checkAccess] is true can always read: both read
    functions succeed, whatever the time, and return the record of the
    patient, which exists and is well formed; the read through
    [accessMedicalRecord] is logged, the one through [getMedicalRecord]
    leaves the state as it is.  The doctor cannot list the other doctors of
    the patient: [getAuthorizedDoctors] is for the patient alone. *)
Theorem granted_doctor_reads env p s :
  reachable s →
  checkAccess p (sender env) s = Ok true s →
  getMedicalRecord env p s = Ok (record s p) s ∧
  accessMedicalRecord env p s = Ok (record s p) (recordAccessed env p s) ∧
  wellFormed (record s p) ∧
  getAuthorizedDoctors env p s = Revert OnlyPatientCanPerform s.
Proof.
  intros Hs Hg%checkAccess_true. pose proof (reachable_consistent s Hs) as Hc.
  destruct env as [d t]. simpl in Hg.
  destruct (authorized_granted d t p s Hc Hg) as [Ha Hne].
  pose proof (granted_record s Hc _ _ Hg) as He.
  rewrite getMedicalRecord_eq, accessMedicalRecord_eq, getAuthorizedDoctors_eq,
    Ha, He.
  simpl. rewrite Hne.
  split; [done|]. split; [done|]. split; [|done].
  destruct (reachable_recordsValid s Hs p) as [?|Hz]; [done|].
  rewrite Hz in He. discriminate.
Qed.

Lemma granted_doctor_reads_witness :
  getMedicalRecord (mkEnv 3 20) 1 ward = Ok (record ward 1) ward ∧
  accessMedicalRecord (mkEnv 3 20) 1 ward
  = Ok (record ward 1) (recordAccessed (mkEnv 3 20) 1 ward) ∧
  wellFormed (record ward 1) ∧
  getAuthorizedDoctors (mkEnv 3 20) 1 ward = Revert OnlyPatientCanPerform ward.
Proof.
  apply (granted_doctor_reads (mkEnv 3 20) 1 ward).
  - apply reachable_ward.
  - vm_compute. reflexivity.
Defined.

(** X8: once a revoke has succeeded the doctor is shut out: whatever the
    time, both read functions fail for the doctor with "Access denied", and
    nothing is logged. *)
Theorem revoked_doctor_is_denied env d t s s' :
  reachable s →
  revokeAccess env d s = Ok tt s' →
  getMedicalRecord (mkEnv d t) (sender env) s' = Revert AccessDeniedMessage s' ∧
  accessMedicalRecord (mkEnv d t) (sender env) s' = Revert AccessDeniedMessage s' ∧
  events (step (mkEnv d t) (AccessMedicalRecord (sender env)) s') = events s'.
Proof.
  intros Hs Hr. pose proof (reachable_consistent s Hs) as Hc.
  apply revokeAccess_Ok in Hr as (-> & _ & Hg).
  destruct (granted_other s Hc _ _ Hg) as [Hne%N.eqb_neq _].
  assert (Ha : authorized (mkEnv d t) (sender env) (accessRevoked env d s) = false).
  { unfold authorized. simpl. rewrite Hne, permission_accessRevoked.
    by rewrite decide_True. }
  unfold step, call, returning, bind.
  by rewrite getMedicalRecord_eq, accessMedicalRecord_eq, Ha.
Qed.

Lemma revoked_doctor_is_denied_witness :
  getMedicalRecord (mkEnv 2 20) (sender (mkEnv 1 14)) ward_revoked
  = Revert AccessDeniedMessage ward_revoked ∧
  accessMedicalRecord (mkEnv 2 20) (sender (mkEnv 1 14)) ward_revoked
  = Revert AccessDeniedMessage ward_revoked ∧
  events (step (mkEnv 2 20) (AccessMedicalRecord (sender (mkEnv 1 14))) ward_revoked)
  = events ward_revoked.
Proof.
  apply (revoked_doctor_is_denied (mkEnv 1 14) 2 20 ward ward_revoked).
  - apply reachable_ward.
  - vm_compute. reflexivity.
Defined.

(** ** The patient's own reads *)

(** X9: for the patient the three read functions are the same: reading the
    own record through [getMedicalRecord] or [accessMedicalRecord] gives the
    result and the state of [getMyRecord], in every state; none of them logs
    the read, and all fail with "Patient record does not exist" when there
    is no record. *)
Theorem own_reads_agree env s :
  getMedicalRecord env (sender env) s = getMyRecord env s ∧
  accessMedicalRecord env (sender env) s = getMyRecord env s ∧
  (∀ r s', getMyRecord env s = Ok r s' → s' = s ∧ r = record s (sender env)) ∧
  (recordExists (sender env) s = Ok false s →
   getMyRecord env s = Revert PatientRecordDoesNotExist s).
Proof.
  assert (Ha : authorized env (sender env) s = true)
    by (unfold authorized; by rewrite N.eqb_refl).
  rewrite getMedicalRecord_eq, accessMedicalRecord_eq, getMyRecord_eq, Ha, N.eqb_refl.
  unfold recordExists, bind, get, ret.
  destruct (MedicalRecord.exists_ (record s (sender env))); simpl.
  - split; [done|]. split; [done|]. split; [|done]. by intros r s' [= <- <-].
  - done.
Qed.

(** ** Updating a record *)

(** X10: when a patient writes the record again, the grants are kept: a
    doctor who had access still has it, the list of doctors is the same, and
    the doctor reads the new version of the record. *)
Theorem update_keeps_access env n a h i d t s s' :
  reachable s →
  checkAccess (sender env) d s = Ok true s →
  addMedicalRecord env n a h i s = Ok tt s' →
  checkAccess (sender env) d s' = Ok true s' ∧
  doctors s' (sender env) = doctors s (sender env) ∧
  getMedicalRecord (mkEnv d t) (sender env) s'
  = Ok (MedicalRecord.mk n a h i (now env) true) s'.
Proof.
  intros Hs Hg%checkAccess_true Hadd. pose proof (reachable_consistent s Hs) as Hc.
  rewrite addMedicalRecord_eq in Hadd.
  destruct (String.eqb n EmptyString); [done|].
  destruct (negb _); [done|]. destruct (String.eqb h EmptyString); [done|].
  injection Hadd as <-.
  pose proof (consistent_recordAdded env n a h i s Hc) as Hc'.
  assert (Hg' : AccessPermission.granted
                  (permission (recordAdded env n a h i s) (sender env) d) = true) by done.
  destruct (authorized_granted d t _ _ Hc' Hg') as [Ha _].
  split; [by apply checkAccess_true|]. split; [done|].
  rewrite getMedicalRecord_eq, Ha, record_recordAdded. by rewrite decide_True.
Qed.

Lemma update_keeps_access_witness :
  checkAccess (sender (mkEnv 1 30)) 3
    (step (mkEnv 1 30) (AddMedicalRecord "Jane Roe" 41 "Asthma, flu" "Qm") ward)
  = Ok true (step (mkEnv 1 30) (AddMedicalRecord "Jane Roe" 41 "Asthma, flu" "Qm") ward) ∧
  doctors (step (mkEnv 1 30) (AddMedicalRecord "Jane Roe" 41 "Asthma, flu" "Qm") ward)
    (sender (mkEnv 1 30))
  = doctors ward (sender (mkEnv 1 30)) ∧
  getMedicalRecord (mkEnv 3 31) (sender (mkEnv 1 30))
    (step (mkEnv 1 30) (AddMedicalRecord "Jane Roe" 41 "Asthma, flu" "Qm") ward)
  = Ok (MedicalRecord.mk "Jane Roe" 41 "Asthma, flu" "Qm" (now (mkEnv 1 30)) true)
       (step (mkEnv 1 30) (AddMedicalRecord "Jane Roe" 41 "Asthma, flu" "Qm") ward).
Proof.
  apply (update_keeps_access (mkEnv 1 30) "Jane Roe" 41 "Asthma, flu" "Qm" 3 31 ward).
  - apply reachable_ward.
  - vm_compute. reflexivity.
  - vm_compute. reflexivity.
Defined.

(** ** A caller without a record *)

(** X11: an address without a record has an empty list of doctors and no
    doctor with access; it can list its (empty) list, and every grant or
    revoke it sends fails with "Patient record does not exist", whoever the
    doctor is, so the other checks of [grantAccess] are not reached. *)
Theorem no_record_no_doctors env d s :
  reachable s →
  recordExists (sender env) s = Ok false s →
  doctors s (sender env) = [] ∧
  getAuthorizedDoctors env (sender env) s = Ok [] s ∧
  (∀ x, checkAccess (sender env) x s = Ok false s) ∧
  grantAccess env d s = Revert PatientRecordDoesNotExist s ∧
  revokeAccess env d s = Revert PatientRecordDoesNotExist s.
Proof.
  intros Hs He. pose proof (reachable_consistent s Hs) as Hc.
  assert (Hf : MedicalRecord.exists_ (record s (sender env)) = false).
  { revert He. unfold recordExists, bind, get, ret. by intros [= ->]. }
  clear He.
  assert (Hnone : ∀ x, AccessPermission.granted (permission s (sender env) x) = false).
  { intros x. destruct (AccessPermission.granted _) eqn:Hg; [|done].
    apply (granted_record s Hc) in Hg. congruence. }
  assert (Hnil : doctors s (sender env) = []).
  { destruct (doctors s (sender env)) as [|x l] eqn:Hl; [done|].
    assert (Hx : x ∈ doctors s (sender env)) by (rewrite Hl; apply list_elem_of_here).
    apply (doctors_granted s Hc) in Hx. by rewrite Hnone in Hx. }
  split; [done|].
  split; [by rewrite getAuthorizedDoctors_eq, N.eqb_refl, Hnil|].
  split; [intros x; by apply checkAccess_false|].
  by rewrite grantAccess_eq, revokeAccess_eq, Hf.
Qed.

Lemma no_record_no_doctors_witness :
  doctors ward (sender (mkEnv 7 30)) = [] ∧
  getAuthorizedDoctors (mkEnv 7 30) (sender (mkEnv 7 30)) ward = Ok [] ward ∧
  (∀ x, checkAccess (sender (mkEnv 7 30)) x ward = Ok false ward) ∧
  grantAccess (mkEnv 7 30) 7 ward = Revert PatientRecordDoesNotExist ward ∧
  revokeAccess (mkEnv 7 30) 7 ward = Revert PatientRecordDoesNotExist ward.
Proof.
  apply (no_record_no_doctors (mkEnv 7 30) 7 ward).
  - apply reachable_ward.
  - vm_compute. reflexivity.
Defined.

(** ** The removal loop on any array *)

(** X12: on any array, with or without duplicates, the removal loop of
    [revokeAccess] leaves the array as it is when the doctor is not in it
    (the empty array included), and otherwise takes out exactly one
    occurrence of the doctor, the first one: the array gets one shorter and
    holds, up to order, the other entries. *)
Theorem removal_takes_one_occurrence d (ds : list address) :
  removeDoctor d [] = [] ∧
  (d ∉ ds → removeDoctor d ds = ds) ∧
  (d ∈ ds →
   d :: removeDoctor d ds ≡ₚ ds ∧
   length (removeDoctor d ds) = pred (length ds) ∧
   ∃ l1 l2, ds = l1 ++ d :: l2 ∧ (d ∉ l1) ∧
            take (length l1) (removeDoctor d ds) = l1).
Proof.
  split; [done|]. split; [apply removeDoctor_absent|].
  intros Hd. pose proof (removeDoctor_perm d ds Hd) as Hp.
  split; [done|]. split.
  - apply Permutation_length in Hp. simpl in Hp. lia.
  - apply list_elem_of_split_l in Hd as (l1 & l2 & -> & Hd).
    exists l1, l2. split; [done|]. split; [done|].
    rewrite removeDoctor_found by done.
    destruct l2; [by rewrite firstn_all|]. by rewrite take_app_length.
Qed.

(** ** The event log as an audit trail *)

Lemma events_step env c s :
  events (step env c s) = events s ∨ ∃ e, events (step env c s) = events s ++ [e].
Proof. destruct (step_outcome env c s); [by left|right; by eexists..]. Qed.

(** X13: the log only grows: whatever transactions are run, failed ones
    included, the events logged before stay where they are, and each
    transaction adds at most one event. *)
Theorem log_only_grows txs s :
  ∃ k, events (run txs s) = events s ++ k ∧ (length k ≤ length txs)%nat.
Proof.
  revert s. induction txs as [|[env c] txs IH]; intros s.
  - exists []. by rewrite app_nil_r.
  - destruct (IH (step env c s)) as (k & Hk & Hlen).
    change (run ((env, c) :: txs) s) with (run txs (step env c s)).
    destruct (events_step env c s) as [He|[e He]]; rewrite He in Hk.
    + exists k. split; [done|]. simpl. lia.
    + exists (e :: k). split; [by rewrite Hk, <- app_assoc|]. simpl. lia.
Qed.

Lemma permissionInLog_snoc log e p d :
  permissionInLog (log ++ [e]) p d
  = replayPermission p d (permissionInLog log p d) e.
Proof. apply foldl_snoc. Qed.

Lemma recordInLog_snoc log e p :
  recordInLog (log ++ [e]) p = replayRecord p (recordInLog log p) e.
Proof. apply foldl_snoc. Qed.

Lemma permissionsLogged_step env c s :
  permissionsLogged s → permissionsLogged (step env c s).
Proof.
  intros Hs.
  destruct (step_outcome env c s) as [c|n a h i _ _ _|d0 _ _ _ _|d0 _ _|p0 _ _ _];
    intros p d; simpl; rewrite ?permissionInLog_snoc; simpl; try apply Hs.
  - rewrite permission_accessGranted.
    destruct (decide (p = sender env ∧ d = d0)) as [[-> ->]|Hk].
    + by rewrite decide_True.
    + rewrite decide_False by (intros [<- <-]; by apply Hk). apply Hs.
  - rewrite permission_accessRevoked.
    destruct (decide (p = sender env ∧ d = d0)) as [[-> ->]|Hk].
    + rewrite decide_True by done. simpl. by rewrite <- Hs.
    + rewrite decide_False by (intros [<- <-]; by apply Hk). apply Hs.
Qed.

Lemma reachable_permissionsLogged s : reachable s → permissionsLogged s.
Proof.
  induction 1 as [|env c s _ IH]; [done|]. by apply permissionsLogged_step.
Qed.

(** X14: the permissions can be rebuilt from the log: in every state of the
    contract [checkAccess] answers what the last [AccessGranted] or
    [AccessRevoked] event of the pair says (false when there is none), and
    the timestamp of the permission is the time of the last [AccessGranted]
    event of the pair: a revoke does not change it. *)
Theorem permissions_match_log s p d :
  reachable s →
  checkAccess p d s = Ok (fst (permissionInLog (events s) p d)) s ∧
  AccessPermission.timestamp (permission s p d)
  = snd (permissionInLog (events s) p d).
Proof.
  intros Hs. pose proof (reachable_permissionsLogged s Hs p d) as H.
  rewrite checkAccess_eq, <- H. done.
Qed.

Lemma permissions_match_log_witness :
  checkAccess 1 2 ward_revoked
  = Ok (fst (permissionInLog (events ward_revoked) 1 2)) ward_revoked ∧
  AccessPermission.timestamp (permission ward_revoked 1 2)
  = snd (permissionInLog (events ward_revoked) 1 2).
Proof. apply (permissions_match_log ward_revoked 1 2), reachable_ward_revoked. Defined.

Lemma reachable_recordsLogged s p :
  reachable s →
  match recordInLog (events s) p with
  | Some (n, a, t) =>
      MedicalRecord.exists_ (record s p) = true ∧
      MedicalRecord.name (record s p) = n ∧
      MedicalRecord.age (record s p) = a ∧
      MedicalRecord.timestamp (record s p) = t
  | None => record s p = MedicalRecord.zero
  end.
Proof.
  induction 1 as [|env c s _ IH].
  - simpl. unfold record. simpl. by rewrite lookup_total_empty.
  - destruct (step_outcome env c s) as [c|n a h i _ _ _|d0 _ _ _ _|d0 _ _|p0 _ _ _];
      simpl; rewrite ?recordInLog_snoc; simpl; try apply IH.
    rewrite record_recordAdded.
    destruct (decide (p = sender env)) as [->|Hp].
    + by rewrite decide_True.
    + rewrite decide_False by done. apply IH.
Qed.

(** X15: the records can be checked against the log: a patient has a record
    exactly when the log holds a [MedicalRecordAdded] event of the patient,
    and the name, the age and the timestamp of the record are those of the
    last such event. *)
Theorem records_match_log s p :
  reachable s →
  match recordInLog (events s) p with
  | Some (n, a, t) =>
      recordExists p s = Ok true s ∧
      MedicalRecord.name (record s p) = n ∧
      MedicalRecord.age (record s p) = a ∧
      MedicalRecord.timestamp (record s p) = t
  | None => recordExists p s = Ok false s ∧ record s p = MedicalRecord.zero
  end.
Proof.
  intros Hs. pose proof (reachable_recordsLogged s p Hs) as H.
  destruct (recordInLog (events s) p) as [[[n a] t]|].
  - destruct H as (He & ?). split; [by apply recordExists_true|done].
  - split; [|done]. unfold recordExists, bind, get, ret. by rewrite H.
Qed.

Lemma records_match_log_witness :
  match recordInLog (events ward) 1 with
  | Some (n, a, t) =>
      recordExists 1 ward = Ok true ward ∧
      MedicalRecord.name (record ward 1) = n ∧
      MedicalRecord.age (record ward 1) = a ∧
      MedicalRecord.timestamp (record ward 1) = t
  | None => recordExists 1 ward = Ok false ward ∧ record ward 1 = MedicalRecord.zero
  end.
Proof. apply (records_match_log ward 1), reachable_ward. Defined.

Lemma snoc_eq_middle {A} (l : list A) e l1 x l2 :
  l ++ [e] = l1 ++ x :: l2 →
  (l2 = [] ∧ l = l1 ∧ e = x) ∨ (∃ l2', l2 = l2' ++ [e] ∧ l = l1 ++ x :: l2').
Proof.
  destruct l2 as [|y l2 _] using rev_ind; intros H.
  - left. change (l1 ++ [x]) with (l1 ++ [x]) in H.
    apply app_inj_tail in H as [-> ->]. done.
  - right. exists l2.
    change (l1 ++ x :: l2 ++ [y]) with (l1 ++ (x :: l2) ++ [y]) in H.
    rewrite app_assoc in H. apply app_inj_tail in H as [-> ->]. done.
Qed.

Lemma accessesCovered_snoc log e :
  accessesCovered log →
  (∀ p d t, e = RecordAccessed p d t →
            d ≠ p ∧ fst (permissionInLog log p d) = true) →
  accessesCovered (log ++ [e]).
Proof.
  intros Hlog He l1 l2 p d t Heq.
  apply snoc_eq_middle in Heq as [(_ & -> & ->)|(l2' & _ & ->)].
  - by apply (He p d t).
  - by apply (Hlog l1 l2' p d t).
Qed.

Lemma accessesCovered_step env c s :
  consistent s → permissionsLogged s →
  accessesCovered (events s) → accessesCovered (events (step env c s)).
Proof.
  intros Hc Hp Hs.
  destruct (step_outcome env c s) as [c|n a h i _ _ _|d0 _ _ _ _|d0 _ _|p0 Hne Ha _];
    simpl; try done; apply accessesCovered_snoc; try done.
  intros p d t [= <- <- <-]. split; [done|].
  rewrite <- (Hp p0 (sender env)). simpl.
  unfold authorized in Ha. apply orb_true_iff in Ha as [Ha|Ha].
  - by apply N.eqb_eq in Ha.
  - by apply andb_true_iff in Ha as [? _].
Qed.

(** X16: no access is logged without a grant: every [RecordAccessed] event
    in the log of the contract names a doctor other than the patient, and
    the events logged before it show that doctor as granted by the patient
    at that point (the last grant or revoke of the pair before the access is
    a grant). *)
Theorem logged_accesses_were_granted s l1 l2 p d t :
  reachable s →
  events s = l1 ++ RecordAccessed p d t :: l2 →
  d ≠ p ∧
  fst (permissionInLog l1 p d) = true ∧
  ∃ t', AccessGranted p d t' ∈ l1.
Proof.
  intros Hs Hev.
  assert (Hcov : accessesCovered (events s)).
  { clear Hev. induction Hs as [|env c s Hs IH].
    - intros k1 k2 ? ? ? Hk. by destruct k1.
    - apply accessesCovered_step;
        [by apply reachable_consistent|by apply reachable_permissionsLogged|done]. }
  destruct (Hcov l1 l2 p d t Hev) as [Hne Hg]. split; [done|]. split; [done|].
  clear Hev Hcov Hs. revert Hg. unfold permissionInLog.
  induction l1 as [|e l1 IH] using rev_ind; [done|].
  rewrite foldl_snoc. intros Hg.
  destruct e as [? ? ? ?|p' d' t'|p' d' t'|? ? ?]; simpl in Hg;
    try (destruct (IH Hg) as [t0 ?]; exists t0; apply elem_of_app; by left).
  - destruct (decide (p' = p ∧ d' = d)) as [[-> ->]|?].
    + exists t'. apply elem_of_app. right. apply list_elem_of_here.
    + destruct (IH Hg) as [t0 ?]. exists t0. apply elem_of_app. by left.
  - destruct (decide (p' = p ∧ d' = d)) as [[-> ->]|?]; [done|].
    destruct (IH Hg) as [t0 ?]. exists t0. apply elem_of_app. by left.
Qed.

(** ** Independence of patients *)


(** What a transaction does to the data of its sender depends on that data
    alone. *)
Lemma step_local env c s1 s2 :
  sameData (sender env) s1 s2 →
  sameData (sender env) (step env c s1) (step env c s2).
Proof.
  intros H. pose proof H as (Hr & Hp & Hd).
  unfold step, call, returning, bind.
  destruct c as [n a h i|d|d|p|p|p d|p| |p]; simpl.
  - rewrite !addMedicalRecord_eq. repeat branch.
    split; [by rewrite !record_recordAdded, Hr|done].
  - rewrite !grantAccess_eq, Hr, Hp. repeat branch.
    split; [done|]. split.
    + intros d'. by rewrite !permission_accessGranted, Hp.
    + by rewrite !doctors_accessGranted, Hd.
  - rewrite !revokeAccess_eq, Hr, Hp. repeat branch.
    split; [done|]. split.
    + intros d'. by rewrite !permission_accessRevoked, !Hp.
    + by rewrite !doctors_accessRevoked, Hd.
  - rewrite !getMedicalRecord_eq. repeat branch.
  - rewrite !accessMedicalRecord_eq. repeat branch; exact H.
  - done.
  - rewrite !getAuthorizedDoctors_eq. repeat branch.
  - rewrite !getMyRecord_eq, Hr. repeat branch.
  - done.
Qed.

Lemma sameData_sym a s1 s2 : sameData a s1 s2 → sameData a s2 s1.
Proof. intros (? & ? & ?). by repeat split. Qed.

Lemma sameData_trans a s1 s2 s3 :
  sameData a s1 s2 → sameData a s2 s3 → sameData a s1 s3.
Proof.
  intros (Hr & Hp & Hd) (Hr' & Hp' & Hd').
  split; [congruence|]. split; [|congruence]. intros d. by rewrite Hp.
Qed.

(** X17: transactions of different senders commute on the stored data: run
    in either order they leave every patient with the same record, the same
    permissions and the same list of doctors.  Nothing is said of the event
    log, which depends on the order (see [log_depends_on_order] below). *)
Theorem different_senders_commute env1 c1 env2 c2 s q :
  sender env1 ≠ sender env2 →
  record (step env1 c1 (step env2 c2 s)) q
  = record (step env2 c2 (step env1 c1 s)) q ∧
  (∀ d, permission (step env1 c1 (step env2 c2 s)) q d
        = permission (step env2 c2 (step env1 c1 s)) q d) ∧
  doctors (step env1 c1 (step env2 c2 s)) q
  = doctors (step env2 c2 (step env1 c1 s)) q.
Proof.
  intros Hne. change (sameData q (step env1 c1 (step env2 c2 s))
                                 (step env2 c2 (step env1 c1 s))).
  destruct (decide (q = sender env1)) as [->|H1].
  - apply sameData_trans with (step env1 c1 s).
    + apply step_local, step_isolated. done.
    + apply sameData_sym, step_isolated. done.
  - destruct (decide (q = sender env2)) as [->|H2].
    + apply sameData_trans with (step env2 c2 s).
      * by apply step_isolated.
      * apply sameData_sym, step_local, step_isolated. done.
    + apply sameData_trans with s.
      * apply sameData_trans with (step env2 c2 s); by apply step_isolated.
      * apply sameData_sym.
        apply sameData_trans with (step env1 c1 s); by apply step_isolated.
Qed.

Lemma different_senders_commute_witness :
  record (step (mkEnv 1 30) (RevokeAccess 3)
            (step (mkEnv 9 31) (AddMedicalRecord "Eve" 30 "None" EmptyString) ward)) 1
  = record (step (mkEnv 9 31) (AddMedicalRecord "Eve" 30 "None" EmptyString)
              (step (mkEnv 1 30) (RevokeAccess 3) ward)) 1 ∧
  (∀ d, permission (step (mkEnv 1 30) (RevokeAccess 3)
                      (step (mkEnv 9 31) (AddMedicalRecord "Eve" 30 "None" EmptyString) ward)) 1 d
        = permission (step (mkEnv 9 31) (AddMedicalRecord "Eve" 30 "None" EmptyString)
                        (step (mkEnv 1 30) (RevokeAccess 3) ward)) 1 d) ∧
  doctors (step (mkEnv 1 30) (RevokeAccess 3)
             (step (mkEnv 9 31) (AddMedicalRecord "Eve" 30 "None" EmptyString) ward)) 1
  = doctors (step (mkEnv 9 31) (AddMedicalRecord "Eve" 30 "None" EmptyString)
               (step (mkEnv 1 30) (RevokeAccess 3) ward)) 1.
Proof.
  apply (different_senders_commute (mkEnv 1 30) (RevokeAccess 3) (mkEnv 9 31)
           (AddMedicalRecord "Eve" 30 "None" EmptyString) ward 1).
  discriminate.
Defined.

(** The event logs of the two orders can differ by more than the order of
    their events: when patient 1 grants doctor 5 before doctor 5 reads, the
    read is logged; the other way round the read is denied and logs
    nothing. *)
Example log_depends_on_order :
  events (step (mkEnv 5 21) (AccessMedicalRecord 1)
            (step (mkEnv 1 20) (GrantAccess 5) ward))
  = events ward ++ [AccessGranted 1 5 20; RecordAccessed 1 5 21] ∧
  events (step (mkEnv 1 20) (GrantAccess 5)
            (step (mkEnv 5 21) (AccessMedicalRecord 1) ward))
  = events ward ++ [AccessGranted 1 5 20].
Proof. by vm_compute. Qed.

(** ** What a read returns *)

(** X18: a read that succeeds, through any of the three read functions,
    returns the stored record of the patient, and in every state of the
    contract that record has its [exists] flag set and well-formed fields: a
    caller never receives an empty record, a missing one shows as a
    failure. *)
Theorem reads_return_existing_records env p s r s' :
  reachable s →
  getMedicalRecord env p s = Ok r s' ∨
  accessMedicalRecord env p s = Ok r s' ∨
  (p = sender env ∧ getMyRecord env s = Ok r s') →
  r = record s p ∧ wellFormed r.
Proof.
  intros Hs H.
  assert (Hr : r = record s p ∧ MedicalRecord.exists_ r = true).
  { destruct H as [H|[H|[-> H]]]; revert H.
    - rewrite getMedicalRecord_eq. repeat branch. intros [= <- _].
      split; [done|]. by destruct (MedicalRecord.exists_ _).
    - rewrite accessMedicalRecord_eq. repeat branch; intros [= <- _];
        (split; [done|]); by destruct (MedicalRecord.exists_ _).
    - rewrite getMyRecord_eq. repeat branch. by intros [= <- _]. }
  destruct Hr as [-> He]. split; [done|].
  destruct (reachable_recordsValid s Hs p) as [?|Hz]; [done|].
  rewrite Hz in He. discriminate.
Qed.

Lemma reads_return_existing_records_witness :
  record ward 1 = record ward 1 ∧ wellFormed (record ward 1).
Proof.
  apply (reads_return_existing_records (mkEnv 3 20) 1 ward (record ward 1) ward).
  - apply reachable_ward.
  - left. vm_compute. reflexivity.
Defined.

Lemma logged_accesses_were_granted_witness :
  3 ≠ 1 ∧
  fst (permissionInLog (events ward) 1 3) = true ∧
  ∃ t', AccessGranted 1 3 t' ∈ events ward.
Proof.
  apply (logged_accesses_were_granted
           (step (mkEnv 3 20) (AccessMedicalRecord 1) ward) (events ward) [] 1 3 20).
  - apply reachable_step, reachable_ward.
  - vm_compute. reflexivity.
Defined.
